(** * lib26-frontend: the API test console, embedded in Rocq

    A shallow embedding of the console page (the [App] component with its
    helpers [isRecord], [hasItems], [isPaged], [apiFetch], [selectedIdList],
    [formatBody], [appendLog] and [run]) together with the parts of the
    JavaScript host the page calls ([parseInt], [String.prototype.trim],
    [split], [includes], [JSON.parse], [JSON.stringify], [Response]), the
    landing page ([src/App.tsx]) and the proxy table of the development
    server.

    Conventions.
    - A JavaScript string is the list of its UTF-16 code units ([jsstring]).
    - A JavaScript number is an IEEE binary64 value, kept as the exact
      rational it denotes ([number]).
    - An [unknown] value is a tree ([value]); objects list their own
      enumerable properties in enumeration order.
    - The call stack of the host is finite ([Host]): [JSON.stringify] and
      [String] of an array throw a RangeError on a value nested deeper
      than the host takes.  What depends on it is stated for every
      host. *)

From Stdlib Require Import ZArith QArith List Bool String Ascii Lia.
Import ListNotations.

Set Warnings "-register-all".

Local Open Scope Z_scope.

(** ** Strings *)

Module Str.

Definition jsstring := list N.

(** A source literal: every character of the page's literals is ASCII. *)
Definition lit (s : string) : jsstring :=
  List.map N_of_ascii (list_ascii_of_string s).

Fixpoint eqb (a b : jsstring) : bool :=
  match a, b with
  | [], [] => true
  | x :: a', y :: b' => N.eqb x y && eqb a' b'
  | _, _ => false
  end.

(** [s.startsWith(p)] *)
Fixpoint starts_with (p s : jsstring) : bool :=
  match p, s with
  | [], _ => true
  | x :: p', y :: s' => N.eqb x y && starts_with p' s'
  | _ :: _, [] => false
  end.

(** [s.includes(t)] *)
Fixpoint includes (s t : jsstring) : bool :=
  starts_with t s ||
  match s with
  | [] => false
  | _ :: s' => includes s' t
  end.

(** WhiteSpace and LineTerminator code units, the set [trim] and
    [parseInt] strip. *)
Definition is_ws (c : N) : bool :=
  let z := Z.of_N c in
  ((9 <=? z) && (z <=? 13)) || (z =? 32) || (z =? 160) || (z =? 5760) ||
  ((8192 <=? z) && (z <=? 8202)) || (z =? 8232) || (z =? 8233) ||
  (z =? 8239) || (z =? 8287) || (z =? 12288) || (z =? 65279).

Fixpoint trim_start (s : jsstring) : jsstring :=
  match s with
  | c :: s' => if is_ws c then trim_start s' else s
  | [] => []
  end.

Definition trim_end (s : jsstring) : jsstring := rev (trim_start (rev s)).

(** [s.trim()] *)
Definition trim (s : jsstring) : jsstring := trim_end (trim_start s).

(** [s.split(sep)]: [skip] counts the code units of a matched separator
    still to be passed over, [cur] is the piece being read, reversed. *)
Fixpoint split_go (sep : jsstring) (skip : nat) (cur s : jsstring)
  : list jsstring :=
  match s with
  | [] => [rev cur]
  | c :: s' =>
      match skip with
      | S k => split_go sep k cur s'
      | O =>
          if starts_with sep s
          then rev cur :: split_go sep (List.length sep - 1) [] s'
          else split_go sep 0 (c :: cur) s'
      end
  end.

Definition split (s sep : jsstring) : list jsstring :=
  match sep with
  | [] => List.map (fun c => [c]) s
  | _ :: _ => split_go sep 0 [] s
  end.

(** [parts.join(sep)] on strings *)
Fixpoint join (sep : jsstring) (parts : list jsstring) : jsstring :=
  match parts with
  | [] => []
  | [p] => p
  | p :: rest => p ++ sep ++ join sep rest
  end.

Definition digit_char (d : Z) : N := Z.to_N (48 + d).

(** Decimal digits of a non-negative integer, most significant first. *)
Fixpoint uint_digits (u : Decimal.uint) : jsstring :=
  match u with
  | Decimal.Nil => []
  | Decimal.D0 u' => 48%N :: uint_digits u'
  | Decimal.D1 u' => 49%N :: uint_digits u'
  | Decimal.D2 u' => 50%N :: uint_digits u'
  | Decimal.D3 u' => 51%N :: uint_digits u'
  | Decimal.D4 u' => 52%N :: uint_digits u'
  | Decimal.D5 u' => 53%N :: uint_digits u'
  | Decimal.D6 u' => 54%N :: uint_digits u'
  | Decimal.D7 u' => 55%N :: uint_digits u'
  | Decimal.D8 u' => 56%N :: uint_digits u'
  | Decimal.D9 u' => 57%N :: uint_digits u'
  end.

Definition of_nonneg (z : Z) : jsstring := uint_digits (N.to_uint (Z.to_N z)).

(** The decimal text of an integer, as a template literal prints it. *)
Definition of_Z (z : Z) : jsstring :=
  if z <? 0 then lit "-" ++ of_nonneg (- z) else of_nonneg z.

End Str.

Import Str.

(** ** Numbers *)

Module Num.

(** A binary64 value.  [Fin q] is the finite value [q] (with [Fin 0] the
    positive zero); the negative zero is apart because [parseInt] and
    [JSON.parse] can produce it. *)
Inductive number :=
| NaN
| PosInf
| NegInf
| NegZero
| Fin (q : Q).

Definition Int (z : Z) : number := Fin (inject_Z z).

Definition two_1024 : Z := Z.shiftl 1 1024.

(** The Number value for a mathematical integer: round to nearest, ties to
    even, on 53 significant bits; from [2^1024 - 2^970] on the result is
    infinite. *)
Definition F_of_Z (z : Z) : number :=
  let a := Z.abs z in
  let bits := Z.log2 a + 1 in
  if bits <=? 53 then Int z
  else
    let sh := bits - 53 in
    let q := Z.shiftr a sh in
    let r := a - Z.shiftl q sh in
    let half := Z.shiftl 1 (sh - 1) in
    let q' := if (half <? r) || ((r =? half) && Z.odd q) then q + 1 else q in
    let v := Z.shiftl q' sh in
    if two_1024 <=? v then (if z <? 0 then NegInf else PosInf)
    else Int (Z.sgn z * v).

Definition Number_isFinite (n : number) : bool :=
  match n with
  | Fin _ | NegZero => true
  | NaN | PosInf | NegInf => false
  end.

Definition val (n : number) : Q :=
  match n with
  | Fin q => q
  | _ => 0%Q
  end.

Definition Q_ltb (a b : Q) : bool :=
  Qnum a * Zpos (Qden b) <? Qnum b * Zpos (Qden a).

Definition Q_leb (a b : Q) : bool :=
  Qnum a * Zpos (Qden b) <=? Qnum b * Zpos (Qden a).

(** [a < b] on Numbers: false as soon as one side is NaN. *)
Definition lt (a b : number) : bool :=
  match a, b with
  | NaN, _ | _, NaN => false
  | PosInf, _ => false
  | _, NegInf => false
  | _, PosInf => true
  | NegInf, _ => true
  | _, _ => Q_ltb (val a) (val b)
  end.

(** [a <= b] *)
Definition le (a b : number) : bool :=
  match a, b with
  | NaN, _ | _, NaN => false
  | _, PosInf => true
  | NegInf, _ => true
  | PosInf, _ => false
  | _, NegInf => false
  | _, _ => Q_leb (val a) (val b)
  end.

(** [a > b] *)
Definition gt (a b : number) : bool := lt b a.

(** [2^t <= p / q] *)
Definition ge_pow2 (p q t : Z) : bool :=
  if 0 <=? t then q * 2 ^ t <=? p else q <=? p * 2 ^ (- t).

(** The Number value nearest to the positive rational [p / q], ties to
    even: 53 significant bits, exponent at least [-1074] (below that the
    value is subnormal or zero), infinite from [2^1024 - 2^970] on. *)
Definition F_of_ratio (neg : bool) (p q : Z) : number :=
  if p =? 0 then (if neg then NegZero else Int 0)
  else
    let t := Z.log2 p - Z.log2 q in
    let E := if ge_pow2 p q t then t else t - 1 in
    let e := Z.max (E - 52) (-1074) in
    let num := if 0 <=? e then p else p * 2 ^ (- e) in
    let den := if 0 <=? e then q * 2 ^ e else q in
    let m0 := num / den in
    let r := num mod den in
    let m := if (den <? 2 * r) || ((2 * r =? den) && Z.odd m0)
             then m0 + 1 else m0 in
    let sm := if neg then - m else m in
    if m =? 0 then (if neg then NegZero else Int 0)
    else if 0 <=? e then
      (if two_1024 <=? m * 2 ^ e then (if neg then NegInf else PosInf)
       else Int (sm * 2 ^ e))
    else Fin (Qred (Qmake sm (Z.to_pos (2 ^ (- e))))).

(** The Number value of the decimal [d * 10^e10], [d] not negative. *)
Definition F_of_decimal (neg : bool) (d e10 : Z) : number :=
  if 0 <=? e10 then F_of_ratio neg (d * 10 ^ e10) 1
  else F_of_ratio neg d (10 ^ (- e10)).

Definition eqb (a b : number) : bool :=
  match a, b with
  | NaN, NaN | PosInf, PosInf | NegInf, NegInf | NegZero, NegZero => true
  | Fin x, Fin y => Qeq_bool x y
  | _, _ => false
  end.

(** *** Number::toString, radix 10 *)

Definition dec_len (z : Z) : Z := Z.of_nat (List.length (Str.of_nonneg z)).

(** [n] with [10^(n-1) <= p/q < 10^n], for [p], [q] positive. *)
Definition magnitude (p q : Z) : Z :=
  let t := dec_len p - dec_len q in
  let ge := if 0 <=? t then q * 10 ^ t <=? p else q <=? p * 10 ^ (- t) in
  if ge then t + 1 else t.

(** The [k]-digit decimals next to [p/q], when they read back as [p/q]:
    the result is [(s, n)] with value [s * 10^(n-k)]. *)
Definition digits_at (p q n k : Z) : option (Z * Z) :=
  let x := k - n in
  let P := if 0 <=? x then p * 10 ^ x else p in
  let D := if 0 <=? x then q else q * 10 ^ (- x) in
  let lo := P / D in
  let r := P mod D in
  let hi := lo + 1 in
  let target := Fin (Qred (Qmake p (Z.to_pos q))) in
  let ok_lo := eqb (F_of_decimal false lo (n - k)) target in
  let ok_hi := eqb (F_of_decimal false hi (n - k)) target in
  let norm s := if s =? 10 ^ k then (10 ^ (k - 1), n + 1) else (s, n) in
  if ok_lo && ok_hi then
    (if (2 * r <? D) || ((2 * r =? D) && Z.even lo)
     then Some (norm lo) else Some (norm hi))
  else if ok_lo then Some (norm lo)
  else if ok_hi then Some (norm hi)
  else None.

(** The shortest such decimal, [k] digits and then up to [tries - 1]
    more.  Seventeen digits identify every binary64 value, so the last
    case is not reached on one when [k + tries] is 18. *)
Fixpoint shortest (tries : nat) (p q n k : Z) : Z * Z * Z :=
  match tries with
  | O => (0, n, k)
  | S f =>
      match digits_at p q n k with
      | Some (s, n') => (s, n', k)
      | None => shortest f p q n (k + 1)
      end
  end.

Definition zeros (n : Z) : jsstring := List.repeat 48%N (Z.to_nat n).

Definition toString_pos (p q : Z) : jsstring :=
  let '(s, n, k) := shortest 17 p q (magnitude p q) 1 in
  let ds := Str.of_nonneg s in
  if (k <=? n) && (n <=? 21) then ds ++ zeros (n - k)
  else if (0 <? n) && (n <=? 21) then
    List.firstn (Z.to_nat n) ds ++ lit "." ++ List.skipn (Z.to_nat n) ds
  else if (-6 <? n) && (n <=? 0) then lit "0." ++ zeros (- n) ++ ds
  else
    let e := n - 1 in
    let sign := if e <? 0 then lit "-" else lit "+" in
    if k =? 1 then ds ++ lit "e" ++ sign ++ Str.of_nonneg (Z.abs e)
    else List.firstn 1 ds ++ lit "." ++ List.skipn 1 ds ++
         lit "e" ++ sign ++ Str.of_nonneg (Z.abs e).

(** [String(n)] for a Number [n] *)
Definition toString (n : number) : jsstring :=
  match n with
  | NaN => lit "NaN"
  | PosInf => lit "Infinity"
  | NegInf => lit "-Infinity"
  | NegZero => lit "0"
  | Fin q =>
      let p := Qnum q in
      let d := Zpos (Qden q) in
      if p =? 0 then lit "0"
      else if p <? 0 then lit "-" ++ toString_pos (- p) d
      else toString_pos p d
  end.

End Num.

Import Num.

(** ** parseInt *)

Module ParseInt.

(** The value of a code unit as a digit, any radix up to 36. *)
Definition digit_value (c : N) : option Z :=
  let z := Z.of_N c in
  if (48 <=? z) && (z <=? 57) then Some (z - 48)
  else if (97 <=? z) && (z <=? 122) then Some (z - 87)
  else if (65 <=? z) && (z <=? 90) then Some (z - 55)
  else None.

(** The longest prefix of radix-[R] digits. *)
Fixpoint digit_prefix (R : Z) (s : jsstring) : list Z :=
  match s with
  | c :: s' =>
      match digit_value c with
      | Some d => if d <? R then d :: digit_prefix R s' else []
      | None => []
      end
  | [] => []
  end.

Definition math_int (R : Z) (ds : list Z) : Z :=
  fold_left (fun acc d => acc * R + d) ds 0.

Definition has_hex_prefix (s : jsstring) : bool :=
  match s with
  | 48%N :: x :: _ => N.eqb x 120 || N.eqb x 88
  | _ => false
  end.

(** [parseInt(string, radix)] *)
Definition parseInt (s : jsstring) (radix : Z) : number :=
  let S := trim_start s in
  let neg := match S with c :: _ => N.eqb c 45 | [] => false end in
  let S := match S with
           | c :: S' => if N.eqb c 43 || N.eqb c 45 then S' else S
           | [] => S
           end in
  if negb (radix =? 0) && ((radix <? 2) || (36 <? radix)) then NaN
  else
    let hex := ((radix =? 0) || (radix =? 16)) && has_hex_prefix S in
    let R := if hex then 16 else if radix =? 0 then 10 else radix in
    let S := if hex then List.skipn 2 S else S in
    match digit_prefix R S with
    | [] => NaN
    | ds =>
        let m := math_int R ds in
        if m =? 0 then (if neg then NegZero else Int 0)
        else F_of_Z (if neg then - m else m)
    end.

End ParseInt.

Import ParseInt.

(** ** Values *)

Module Val.

(** A value of type [unknown].  [VObj] lists the own properties of a plain
    object, [VArr] the elements of an array. *)
Inductive value :=
| VUndefined
| VNull
| VBool (b : bool)
| VNum (n : number)
| VStr (s : jsstring)
| VArr (xs : list value)
| VObj (props : list (jsstring * value)).

(** [typeof x] *)
Definition typeof (x : value) : jsstring :=
  match x with
  | VUndefined => lit "undefined"
  | VNull => lit "object"
  | VBool _ => lit "boolean"
  | VNum _ => lit "number"
  | VStr _ => lit "string"
  | VArr _ => lit "object"
  | VObj _ => lit "object"
  end.

(** [x === null] *)
Definition is_null (x : value) : bool :=
  match x with
  | VNull => true
  | _ => false
  end.

(** [Array.isArray(x)] *)
Definition Array_isArray (x : value) : bool :=
  match x with
  | VArr _ => true
  | _ => false
  end.

Fixpoint own (props : list (jsstring * value)) (k : jsstring) : option value :=
  match props with
  | [] => None
  | (k', v) :: rest => if Str.eqb k' k then Some v else own rest k
  end.

(** The array index a property key denotes: a canonical decimal numeral
    below [2^32 - 1]. *)
Definition array_index (k : jsstring) : option Z :=
  match digit_prefix 10 k with
  | [] => None
  | ds =>
      let i := math_int 10 ds in
      if Str.eqb (Str.of_Z i) k && (i <? 4294967295) then Some i else None
  end.

(** [o.k] on an object-like value: an own data property, or [undefined].
    On an array the own properties are the indices and [length].  The
    inherited members of [Object.prototype] and [Array.prototype] are
    functions, outside [value]; the page reads none of them. *)
Definition get_prop (o : value) (k : jsstring) : value :=
  match o with
  | VObj props =>
      match own props k with
      | Some v => v
      | None => VUndefined
      end
  | VArr xs =>
      if Str.eqb k (lit "length") then VNum (Int (Z.of_nat (List.length xs)))
      else match array_index k with
           | Some i => nth (Z.to_nat i) xs VUndefined
           | None => VUndefined
           end
  | _ => VUndefined
  end.

End Val.

Import Val.

(** ** The shape guards of the page *)

Definition isRecord (x : value) : bool :=
  Str.eqb (typeof x) (lit "object") && negb (is_null x).

Definition hasItems (x : value) : bool :=
  isRecord x && Array_isArray (get_prop x (lit "items")).

Definition isPaged (x : value) : bool :=
  if negb (isRecord x) then false
  else
    let o := x in
    Str.eqb (typeof (get_prop o (lit "total"))) (lit "number") &&
    Str.eqb (typeof (get_prop o (lit "page"))) (lit "number") &&
    Str.eqb (typeof (get_prop o (lit "pageSize"))) (lit "number") &&
    Array_isArray (get_prop o (lit "items")).

(** ** The selected-ids parser *)

Definition selectedIdList (selectedIds : jsstring) : list number :=
  List.filter (fun n => Number_isFinite n && Num.gt n (Int 0))
    (List.map (fun s => parseInt (Str.trim s) 10)
       (Str.split selectedIds (lit ","))).


(** ** Exceptions *)

(** What a [throw] or a rejected promise carries: an instance of [Error]
    (TypeError of a failed fetch, SyntaxError of [JSON.parse], URIError,
    RangeError of an exhausted call stack, DOMException of an interrupted
    body), or any other value. *)
Inductive thrown :=
| ErrorObject (name message : jsstring)
| Thrown (v : value).

Inductive result (A : Type) :=
| Ok (a : A)
| Err (e : thrown).
Arguments Ok {A} a.
Arguments Err {A} e.

(** ** The call stack of the host *)

(** How deep a value is nested: the number of arrays and objects, one
    inside the other, down to its innermost element. *)
Fixpoint depth (v : value) : nat :=
  match v with
  | VArr xs => S (list_max (List.map depth xs))
  | VObj props => S (list_max (List.map (fun kv => depth (snd kv)) props))
  | _ => 0%nat
  end.

(** The same, counting arrays only and stopping at the first object:
    what [Array.prototype.join] descends into. *)
Fixpoint array_depth (v : value) : nat :=
  match v with
  | VArr xs => S (list_max (List.map array_depth xs))
  | _ => 0%nat
  end.

(** [JSON.stringify] and [Array.prototype.join] walk a value by recursion
    on the call stack of the host, which is finite: on a value nested too
    deep they throw a RangeError.  How deep is too deep is the host's own
    business, and not the same for the two, so both depths are parameters
    of what follows.  A host that runs the page has stack for the objects
    the page itself writes into its requests, which are two levels deep;
    [spare_depth] counts from there. *)
Class Host := { spare_depth : nat; join_depth : nat }.

Definition stringify_depth {host : Host} : nat := (2 + spare_depth)%nat.

(** The message is the host's; one text stands for all of them. *)
Definition RangeError : thrown :=
  ErrorObject (lit "RangeError") (lit "Maximum call stack size exceeded").

(** ** JSON *)

Module JSON.

(** *** JSON.parse *)

Definition is_json_ws (c : N) : bool :=
  N.eqb c 9 || N.eqb c 10 || N.eqb c 13 || N.eqb c 32.

Fixpoint skip_ws (s : jsstring) : jsstring :=
  match s with
  | c :: s' => if is_json_ws c then skip_ws s' else s
  | [] => []
  end.

Definition is_dec_digit (c : N) : bool :=
  (48 <=? Z.of_N c) && (Z.of_N c <=? 57).

(** The longest run of decimal digits and what follows it. *)
Fixpoint span_digits (s : jsstring) : list Z * jsstring :=
  match s with
  | c :: s' =>
      if is_dec_digit c
      then let '(ds, rest) := span_digits s' in (Z.of_N c - 48 :: ds, rest)
      else ([], s)
  | [] => ([], [])
  end.

Definition nat_len {A} (l : list A) : Z := Z.of_nat (List.length l).

(** The head of a text is the code unit [c]. *)
Definition head_is (c : N) (s : jsstring) : bool :=
  match s with
  | x :: _ => N.eqb x c
  | [] => false
  end.

(** The fraction of a number token: a dot and at least one digit. *)
Definition parse_frac (s : jsstring) : option (list Z * jsstring) :=
  if head_is 46 s then
    let '(fr, rest) := span_digits (List.tl s) in
    match fr with
    | [] => None
    | _ :: _ => Some (fr, rest)
    end
  else Some ([], s).

(** The exponent of a number token: [e] or [E], an optional sign and at
    least one digit. *)
Definition parse_exp (s : jsstring) : option (Z * jsstring) :=
  if head_is 101 s || head_is 69 s then
    let s1 := List.tl s in
    let eneg := head_is 45 s1 in
    let s2 := if head_is 43 s1 || head_is 45 s1 then List.tl s1 else s1 in
    let '(ex, rest) := span_digits s2 in
    match ex with
    | [] => None
    | _ :: _ => Some ((if eneg then - math_int 10 ex else math_int 10 ex), rest)
    end
  else Some (0, s).

(** A number token: [-? int frac? exp?], with no leading zero on a
    several-digit [int]. *)
Definition parse_number (s : jsstring) : option (number * jsstring) :=
  let neg := head_is 45 s in
  let s1 := if neg then List.tl s else s in
  let '(int, s2) := span_digits s1 in
  match int with
  | [] => None
  | d0 :: more =>
      if (d0 =? 0) && negb (nat_len more =? 0) then None
      else
        match parse_frac s2 with
        | None => None
        | Some (fr, s3) =>
            match parse_exp s3 with
            | None => None
            | Some (ex, rest) =>
                let d := math_int 10 (int ++ fr) in
                Some (F_of_decimal neg d (ex - nat_len fr), rest)
            end
        end
  end.

Definition hex4 (a b c d : N) : option N :=
  match digit_value a, digit_value b, digit_value c, digit_value d with
  | Some x, Some y, Some z, Some w =>
      if (x <? 16) && (y <? 16) && (z <? 16) && (w <? 16)
      then Some (Z.to_N (((x * 16 + y) * 16 + z) * 16 + w))
      else None
  | _, _, _, _ => None
  end.

(** The code unit a one-letter escape stands for. *)
Definition simple_escape (e : N) : option N :=
  if N.eqb e 34 then Some 34%N
  else if N.eqb e 92 then Some 92%N
  else if N.eqb e 47 then Some 47%N
  else if N.eqb e 98 then Some 8%N
  else if N.eqb e 102 then Some 12%N
  else if N.eqb e 110 then Some 10%N
  else if N.eqb e 114 then Some 13%N
  else if N.eqb e 116 then Some 9%N
  else None.

Definition cons_char (c : N) (r : option (jsstring * jsstring))
  : option (jsstring * jsstring) :=
  match r with
  | Some (cs, rest) => Some (c :: cs, rest)
  | None => None
  end.

(** The characters of a string token after its opening quote, up to and
    without the closing one. *)
Fixpoint parse_chars (s : jsstring) : option (jsstring * jsstring) :=
  match s with
  | [] => None
  | c :: s' =>
      if N.eqb c 34 then Some ([], s')
      else if N.eqb c 92 then
        match s' with
        | [] => None
        | e :: s'' =>
            if N.eqb e 117 then
              match s'' with
              | a :: b :: c :: d :: s4 =>
                  match hex4 a b c d with
                  | Some u => cons_char u (parse_chars s4)
                  | None => None
                  end
              | _ => None
              end
            else
              match simple_escape e with
              | Some u => cons_char u (parse_chars s'')
              | None => None
              end
        end
      else if Z.of_N c <? 32 then None
      else cons_char c (parse_chars s')
  end.

Fixpoint set_existing (props : list (jsstring * value)) (k : jsstring)
  (v : value) : list (jsstring * value) :=
  match props with
  | [] => []
  | (k', v') :: rest =>
      if Str.eqb k' k then (k', v) :: rest
      else (k', v') :: set_existing rest k v
  end.

(** A new index key goes among the index keys, in ascending order, ahead
    of every other key. *)
Fixpoint insert_index (props : list (jsstring * value)) (i : Z)
  (k : jsstring) (v : value) : list (jsstring * value) :=
  match props with
  | [] => [(k, v)]
  | (k', v') :: rest =>
      match array_index k' with
      | Some j =>
          if j <? i then (k', v') :: insert_index rest i k v
          else (k, v) :: props
      | None => (k, v) :: props
      end
  end.

(** [CreateDataProperty(obj, k, v)] on a plain object: an existing key
    keeps its place and takes the new value; a new key is listed where
    property enumeration puts it. *)
Definition obj_define (props : list (jsstring * value)) (k : jsstring)
  (v : value) : list (jsstring * value) :=
  match own props k with
  | Some _ => set_existing props k v
  | None =>
      match array_index k with
      | Some i => insert_index props i k v
      | None => props ++ [(k, v)]
      end
  end.

Definition expect (word : jsstring) (v : value) (s : jsstring)
  : option (value * jsstring) :=
  if Str.starts_with word s
  then Some (v, List.skipn (List.length word) s)
  else None.

Section Containers.

(** The parser of the values inside. *)
Variable pv : jsstring -> option (value * jsstring).

(** The elements of an array after its bracket, at most [n] of them. *)
Fixpoint elements (n : nat) (acc : list value) (s : jsstring)
  : option (value * jsstring) :=
  match n with
  | O => None
  | S n' =>
      match pv s with
      | None => None
      | Some (v, rest) =>
          let rest := skip_ws rest in
          if head_is 44 rest then elements n' (acc ++ [v]) (List.tl rest)
          else if head_is 93 rest then Some (VArr (acc ++ [v]), List.tl rest)
          else None
      end
  end.

(** The members of an object after its brace, at most [n] of them. *)
Fixpoint members (n : nat) (acc : list (jsstring * value)) (s : jsstring)
  : option (value * jsstring) :=
  match n with
  | O => None
  | S n' =>
      let s := skip_ws s in
      if head_is 34 s then
        match parse_chars (List.tl s) with
        | None => None
        | Some (k, s2) =>
            let s2 := skip_ws s2 in
            if head_is 58 s2 then
              match pv (List.tl s2) with
              | None => None
              | Some (v, rest) =>
                  let acc' := obj_define acc k v in
                  let rest := skip_ws rest in
                  if head_is 44 rest then members n' acc' (List.tl rest)
                  else if head_is 125 rest
                  then Some (VObj acc', List.tl rest)
                  else None
              end
            else None
        end
      else None
  end.

(** One value at the head of [s], leading white space allowed; [n]
    bounds the length of an array or an object. *)
Definition parse_step (n : nat) (s : jsstring) : option (value * jsstring) :=
  let s := skip_ws s in
  if head_is 110 s then expect (lit "null") VNull s
  else if head_is 116 s then expect (lit "true") (VBool true) s
  else if head_is 102 s then expect (lit "false") (VBool false) s
  else if head_is 34 s then
    match parse_chars (List.tl s) with
    | Some (cs, rest) => Some (VStr cs, rest)
    | None => None
    end
  else if head_is 91 s then
    if head_is 93 (skip_ws (List.tl s))
    then Some (VArr [], List.tl (skip_ws (List.tl s)))
    else elements n [] (List.tl s)
  else if head_is 123 s then
    if head_is 125 (skip_ws (List.tl s))
    then Some (VObj [], List.tl (skip_ws (List.tl s)))
    else members n [] (List.tl s)
  else
    match parse_number s with
    | Some (x, rest) => Some (VNum x, rest)
    | None => None
    end.

End Containers.

(** One JSON value at the head of [s].  A value nested in another is
    parsed with one unit of [fuel] less; [fuel] above the length of the
    text is never used up ([parse_value_fuel] below). *)
Fixpoint parse_value (fuel : nat) (s : jsstring) : option (value * jsstring) :=
  match fuel with
  | O => None
  | S f => parse_step (parse_value f) f s
  end.

(** [JSON.parse(text)]: [None] stands for the SyntaxError. *)
Definition parse (text : jsstring) : option value :=
  match parse_value (S (List.length text)) text with
  | Some (v, rest) =>
      match skip_ws rest with
      | [] => Some v
      | _ :: _ => None
      end
  | None => None
  end.

(** *** JSON.stringify *)

Definition hex_digit (d : Z) : N :=
  if d <? 10 then Z.to_N (48 + d) else Z.to_N (87 + d).

(** [\uXXXX], lower-case hexadecimal. *)
Definition unicode_escape (c : N) : jsstring :=
  let z := Z.of_N c in
  lit "\u" ++ [hex_digit (z / 4096 mod 16); hex_digit (z / 256 mod 16);
               hex_digit (z / 16 mod 16); hex_digit (z mod 16)].

Definition is_high_surrogate (c : N) : bool :=
  (55296 <=? Z.of_N c) && (Z.of_N c <=? 56319).

Definition is_low_surrogate (c : N) : bool :=
  (56320 <=? Z.of_N c) && (Z.of_N c <=? 57343).

Fixpoint quote_chars (s : jsstring) : jsstring :=
  match s with
  | [] => []
  | c :: s' =>
      if N.eqb c 8 then lit "\b" ++ quote_chars s'
      else if N.eqb c 9 then lit "\t" ++ quote_chars s'
      else if N.eqb c 10 then lit "\n" ++ quote_chars s'
      else if N.eqb c 12 then lit "\f" ++ quote_chars s'
      else if N.eqb c 13 then lit "\r" ++ quote_chars s'
      else if N.eqb c 34 then 92%N :: 34%N :: quote_chars s'
      else if N.eqb c 92 then 92%N :: 92%N :: quote_chars s'
      else if Z.of_N c <? 32 then unicode_escape c ++ quote_chars s'
      else if is_high_surrogate c then
        match s' with
        | l :: s'' =>
            if is_low_surrogate l then c :: l :: quote_chars s''
            else unicode_escape c ++ quote_chars s'
        | [] => unicode_escape c
        end
      else if is_low_surrogate c then unicode_escape c ++ quote_chars s'
      else c :: quote_chars s'
  end.

(** [QuoteJSONString] *)
Definition quote (s : jsstring) : jsstring :=
  34%N :: quote_chars s ++ [34%N].

Definition keep_some {A} (l : list (option A)) : list A :=
  List.flat_map (fun o => match o with Some a => [a] | None => [] end) l.

Definition wrap (opn cls gap indent : jsstring) (partial : list jsstring)
  : jsstring :=
  match partial with
  | [] => opn ++ cls
  | _ :: _ =>
      match gap with
      | [] => opn ++ Str.join (lit ",") partial ++ cls
      | _ :: _ =>
          let stepback := indent in
          let indent := indent ++ gap in
          let separator := lit "," ++ [10%N] ++ indent in
          opn ++ [10%N] ++ indent ++ Str.join separator partial ++
          [10%N] ++ stepback ++ cls
      end
  end.

(** [SerializeJSONProperty]: [None] stands for [undefined].  The values
    here carry no [toJSON] method and no replacer is passed. *)
Fixpoint serialize (gap indent : jsstring) (v : value) : option jsstring :=
  match v with
  | VUndefined => None
  | VNull => Some (lit "null")
  | VBool true => Some (lit "true")
  | VBool false => Some (lit "false")
  | VNum n => Some (if Number_isFinite n then Num.toString n else lit "null")
  | VStr s => Some (quote s)
  | VArr xs =>
      let partial :=
        List.map (fun x => match serialize gap (indent ++ gap) x with
                           | Some t => t
                           | None => lit "null"
                           end) xs in
      Some (wrap (lit "[") (lit "]") gap indent partial)
  | VObj props =>
      let colon := match gap with [] => lit ":" | _ :: _ => lit ": " end in
      let partial :=
        keep_some
          (List.map (fun kv => match serialize gap (indent ++ gap) (snd kv) with
                               | Some t => Some (quote (fst kv) ++ colon ++ t)
                               | None => None
                               end) props) in
      Some (wrap (lit "{") (lit "}") gap indent partial)
  end.

(** The gap for the [space] argument when it is a count of spaces. *)
Definition gap_of (space : Z) : jsstring :=
  List.repeat 32%N (Z.to_nat (Z.min 10 space)).

(** The text [JSON.stringify(v, null, space)] is to give: what
    [SerializeJSONProperty] makes of [v] from the empty indent. *)
Definition text_of (v : value) (space : Z) : option jsstring :=
  serialize (gap_of space) [] v.

(** [JSON.stringify(v, null, space)] on a host: that text, or the
    RangeError of a stack that [v] is nested too deep for. *)
Definition stringify {host : Host} (v : value) (space : Z)
  : result (option jsstring) :=
  if Nat.leb (depth v) stringify_depth then Ok (text_of v space)
  else Err RangeError.

End JSON.

(** ** ToString on values: [String(x)] and template interpolation *)

Fixpoint ToString (x : value) : jsstring :=
  match x with
  | VUndefined => lit "undefined"
  | VNull => lit "null"
  | VBool true => lit "true"
  | VBool false => lit "false"
  | VNum n => Num.toString n
  | VStr s => s
  | VArr xs =>
      Str.join (lit ",")
        (List.map (fun e => match e with
                            | VUndefined | VNull => []
                            | _ => ToString e
                            end) xs)
  | VObj _ => lit "[object Object]"
  end.

(** [String(x)] on a host.  An array is joined by recursion on the call
    stack, element by element; nothing else is descended into. *)
Definition String_ {host : Host} (x : value) : result jsstring :=
  if Nat.leb (array_depth x) join_depth then Ok (ToString x)
  else Err RangeError.

(** ** encodeURIComponent *)

Module URI.

Definition unreserved (c : N) : bool :=
  let z := Z.of_N c in
  ((65 <=? z) && (z <=? 90)) || ((97 <=? z) && (z <=? 122)) ||
  ((48 <=? z) && (z <=? 57)) ||
  (z =? 45) || (z =? 95) || (z =? 46) || (z =? 33) || (z =? 126) ||
  (z =? 42) || (z =? 39) || (z =? 40) || (z =? 41).

Definition upper_hex (d : Z) : N :=
  if d <? 10 then Z.to_N (48 + d) else Z.to_N (55 + d).

Definition percent (byte : Z) : jsstring :=
  [37%N; upper_hex (byte / 16); upper_hex (byte mod 16)].

(** The UTF-8 octets of a code point, each percent-escaped. *)
Definition escape_code_point (cp : Z) : jsstring :=
  if cp <? 128 then percent cp
  else if cp <? 2048 then
    percent (192 + cp / 64) ++ percent (128 + cp mod 64)
  else if cp <? 65536 then
    percent (224 + cp / 4096) ++ percent (128 + cp / 64 mod 64) ++
    percent (128 + cp mod 64)
  else
    percent (240 + cp / 262144) ++ percent (128 + cp / 4096 mod 64) ++
    percent (128 + cp / 64 mod 64) ++ percent (128 + cp mod 64).

Definition URIError : thrown :=
  ErrorObject (lit "URIError") (lit "URI malformed").

Fixpoint encodeURIComponent (s : jsstring) : result jsstring :=
  let continue (piece : jsstring) (rest : jsstring) :=
    match encodeURIComponent rest with
    | Ok t => Ok (piece ++ t)
    | Err e => Err e
    end in
  match s with
  | [] => Ok []
  | c :: s' =>
      if unreserved c then continue [c] s'
      else if JSON.is_low_surrogate c then Err URIError
      else if JSON.is_high_surrogate c then
        match s' with
        | l :: s'' =>
            if JSON.is_low_surrogate l then
              continue
                (escape_code_point
                   ((Z.of_N c - 55296) * 1024 + (Z.of_N l - 56320) + 65536))
                s''
            else Err URIError
        | [] => Err URIError
        end
      else continue (escape_code_point (Z.of_N c)) s'
  end.

End URI.

(** ** The Fetch API *)

Module Fetch.

Definition to_lower (s : jsstring) : jsstring :=
  List.map (fun c => if (65 <=? Z.of_N c) && (Z.of_N c <=? 90)
                     then (c + 32)%N else c) s.

(** [headers.get(name)]: header names compare without regard to case, the
    values of a repeated header are joined; [None] stands for [null]. *)
Definition Headers_get (headers : list (jsstring * jsstring))
  (name : jsstring) : option jsstring :=
  match List.filter (fun h => Str.eqb (to_lower (fst h)) (to_lower name))
          headers with
  | [] => None
  | hs => Some (Str.join (lit ", ") (List.map snd hs))
  end.

Record File := { file_name : jsstring }.

Inductive BodyInit :=
| BodyString (s : jsstring)
| BodyFormData (entries : list (jsstring * File)).

Record RequestInit := {
  method : option jsstring;
  init_headers : option (list (jsstring * jsstring));
  init_body : option BodyInit
}.

(** The request the page hands to [fetch]. *)
Record Request := {
  url : jsstring;
  req_method : option jsstring;
  req_headers : list (jsstring * jsstring);
  req_body : option BodyInit;
  credentials : jsstring
}.

(** A response as [fetch] resolves it.  [payload] is what reading the
    body yields: its text, or the error that interrupts the stream. *)
Record Response := {
  status : Z;
  headers : list (jsstring * jsstring);
  payload : result jsstring
}.

(** [res.ok]: the status is an ok status, 200 to 299. *)
Definition Response_ok (res : Response) : bool :=
  (200 <=? status res) && (status res <=? 299).

Inductive fetch_outcome :=
| Resolved (res : Response)
| Rejected (e : thrown).

End Fetch.

Import Fetch.

(** ** The component state *)

Record ApiResult := { ok : bool; api_status : Z; body : value }.

Record AppState := {
  log : jsstring;
  busy : bool;
  username : jsstring;
  password : jsstring;
  q : jsstring;
  page : number;
  pageSize : number;
  books : list value;
  files : option (list File);
  processId : number;
  selectedIds : jsstring;
  searchQ : jsstring;
  searchItems : list value
}.

Definition initial : AppState := {|
  log := [];
  busy := false;
  username := lit "admin";
  password := [];
  q := [];
  page := Int 1;
  pageSize := Int 20;
  books := [];
  files := None;
  processId := Int 0;
  selectedIds := [];
  searchQ := [];
  searchItems := []
|}.

(** A call of one of the state setters.  [LogPrepend text] is
    [setLog((prev) => text + prev)], [SetLog s] is [setLog(s)]. *)
Inductive update :=
| LogPrepend (text : jsstring)
| SetLog (s : jsstring)
| SetBusy (b : bool)
| SetUsername (s : jsstring)
| SetPassword (s : jsstring)
| SetQ (s : jsstring)
| SetPage (n : number)
| SetPageSize (n : number)
| SetBooks (l : list value)
| SetFiles (f : option (list File))
| SetProcessId (n : number)
| SetSelectedIds (s : jsstring)
| SetSearchQ (s : jsstring)
| SetSearchItems (l : list value).

Definition apply (u : update) (st : AppState) : AppState :=
  let '{| log := lg; busy := bs; username := un; password := pw; q := qq;
          page := pg; pageSize := ps; books := bk; files := fl;
          processId := pid; selectedIds := sel; searchQ := sq;
          searchItems := si |} := st in
  match u with
  | LogPrepend text => Build_AppState (text ++ lg) bs un pw qq pg ps bk fl pid sel sq si
  | SetLog s => Build_AppState s bs un pw qq pg ps bk fl pid sel sq si
  | SetBusy b => Build_AppState lg b un pw qq pg ps bk fl pid sel sq si
  | SetUsername s => Build_AppState lg bs s pw qq pg ps bk fl pid sel sq si
  | SetPassword s => Build_AppState lg bs un s qq pg ps bk fl pid sel sq si
  | SetQ s => Build_AppState lg bs un pw s pg ps bk fl pid sel sq si
  | SetPage n => Build_AppState lg bs un pw qq n ps bk fl pid sel sq si
  | SetPageSize n => Build_AppState lg bs un pw qq pg n bk fl pid sel sq si
  | SetBooks l => Build_AppState lg bs un pw qq pg ps l fl pid sel sq si
  | SetFiles f => Build_AppState lg bs un pw qq pg ps bk f pid sel sq si
  | SetProcessId n => Build_AppState lg bs un pw qq pg ps bk fl n sel sq si
  | SetSelectedIds s => Build_AppState lg bs un pw qq pg ps bk fl pid s sq si
  | SetSearchQ s => Build_AppState lg bs un pw qq pg ps bk fl pid sel s si
  | SetSearchItems l => Build_AppState lg bs un pw qq pg ps bk fl pid sel sq l
  end.

Definition apply_all (us : list update) (st : AppState) : AppState :=
  fold_left (fun s u => apply u s) us st.

(** ** Asynchronous code *)

(** An [async] computation as the tree of what it does: it returns, it
    throws (its promise rejects), it calls a state setter, it opens a
    window, or it awaits [fetch] and goes on with what the network
    answers. *)
Inductive Async (A : Type) : Type :=
| Ret (a : A)
| Throw (e : thrown)
| Set_ (u : update) (k : Async A)
| WindowOpen (target_url target : jsstring) (k : Async A)
| Await (req : Request) (k : fetch_outcome -> Async A).
Arguments Ret {A} a.
Arguments Throw {A} e.
Arguments Set_ {A} u k.
Arguments WindowOpen {A} target_url target k.
Arguments Await {A} req k.

Fixpoint bind {A B} (m : Async A) (f : A -> Async B) : Async B :=
  match m with
  | Ret a => f a
  | Throw e => Throw e
  | Set_ u k => Set_ u (bind k f)
  | WindowOpen w t k => WindowOpen w t (bind k f)
  | Await req k => Await req (fun o => bind (k o) f)
  end.

(** [try { m } catch (e) { h e }] *)
Fixpoint try_catch {A} (m : Async A) (h : thrown -> Async A) : Async A :=
  match m with
  | Ret a => Ret a
  | Throw e => h e
  | Set_ u k => Set_ u (try_catch k h)
  | WindowOpen w t k => WindowOpen w t (try_catch k h)
  | Await req k => Await req (fun o => try_catch (k o) h)
  end.

(** [try { m } finally { c }]: [c] runs on both ways out, and what [m]
    returned or threw stands unless [c] throws itself. *)
Fixpoint finally {A} (m : Async A) (c : Async unit) : Async A :=
  match m with
  | Ret a => bind c (fun _ => Ret a)
  | Throw e => bind c (fun _ => Throw e)
  | Set_ u k => Set_ u (finally k c)
  | WindowOpen w t k => WindowOpen w t (finally k c)
  | Await req k => Await req (fun o => finally (k o) c)
  end.

Declare Scope async_scope.
Delimit Scope async_scope with async.
Notation "x <- m ;; k" := (bind m (fun x => k))
  (at level 61, m at next level, right associativity) : async_scope.
Notation "m ;;; k" := (bind m (fun _ => k))
  (at level 61, right associativity) : async_scope.

Definition setState (u : update) : Async unit := Set_ u (Ret tt).

Definition lift {A} (r : result A) : Async A :=
  match r with
  | Ok a => Ret a
  | Err e => Throw e
  end.

(** [await fetch(url, init)] *)
Definition fetch (req : Request) : Async Response :=
  Await req (fun o => match o with
                      | Resolved res => Ret res
                      | Rejected e => Throw e
                      end).

(** [await res.text()] *)
Definition Response_text (res : Response) : Async jsstring :=
  lift (payload res).

(** The message of the SyntaxError is the host's; one text stands for
    all of them. *)
Definition SyntaxError : thrown :=
  ErrorObject (lit "SyntaxError") (lit "Unexpected token in JSON").

(** [await res.json()] *)
Definition Response_json (res : Response) : Async value :=
  (text <- Response_text res ;;
   match JSON.parse text with
   | Some v => Ret v
   | None => Throw SyntaxError
   end)%async.

(** ** The request dispatcher *)

(** [s || d] on strings: the empty string is falsy. *)
Definition or_else (s d : jsstring) : jsstring :=
  match s with
  | [] => d
  | _ :: _ => s
  end.

Definition nl : jsstring := [10%N].

Local Open Scope async_scope.

(** The second argument of the [fetch] call: [init] spread, its headers
    copied (none when absent), the credentials included. *)
Definition request_of (path : jsstring) (init : option RequestInit)
  : Request :=
  {| url := path;
     req_method := match init with Some i => method i | None => None end;
     req_headers := match init with
                    | Some i => match init_headers i with
                                | Some h => h
                                | None => []
                                end
                    | None => []
                    end;
     req_body := match init with Some i => init_body i | None => None end;
     credentials := lit "include" |}.

Definition apiFetch (path : jsstring) (init : option RequestInit)
  : Async ApiResult :=
  res <- fetch (request_of path init) ;;
  let ct := match Headers_get (headers res) (lit "content-type") with
            | Some s => or_else s []
            | None => []
            end in
  body <- (if Str.includes ct (lit "application/json")
           then Response_json res
           else (t <- Response_text res ;; Ret (VStr t))) ;;
  Ret {| ok := Response_ok res; api_status := status res; body := body |}.

(** ** The console *)

(** [formatBody(body)]; [None] stands for the [undefined] that
    [JSON.stringify] gives for an [undefined] body.  The [catch] is
    entered when [JSON.stringify] runs out of stack, and what [String]
    throws there is thrown out of [formatBody]. *)
Definition formatBody {host : Host} (body : value)
  : result (option jsstring) :=
  match body with
  | VStr s => Ok (Some s)
  | _ =>
      match JSON.stringify body 2 with
      | Ok shown => Ok shown
      | Err _ =>
          match String_ body with
          | Ok s => Ok (Some s)
          | Err e => Err e
          end
      end
  end.

(** A template-literal hole holding the result of [formatBody]. *)
Definition interpolate (o : option jsstring) : jsstring :=
  match o with
  | Some s => s
  | None => lit "undefined"
  end.

(** The template literal of [appendLog], around what stands in its last
    hole. *)
Definition block (title : jsstring) (status : Z) (shown : jsstring)
  : jsstring :=
  nl ++ lit "=== " ++ title ++ lit " ===" ++ nl ++
  lit "Status: " ++ Str.of_Z status ++ nl ++
  lit "Body:" ++ nl ++ shown ++ nl.

(** The text [appendLog] builds; [formatBody] is called while it is
    built, and what it throws is thrown from there. *)
Definition log_block {host : Host} (title : jsstring) (r : ApiResult)
  : result jsstring :=
  match formatBody (body r) with
  | Ok shown => Ok (block title (api_status r) (interpolate shown))
  | Err e => Err e
  end.

Definition appendLog {host : Host} (title : jsstring) (r : ApiResult)
  : Async unit :=
  text <- lift (log_block title r) ;;
  setState (LogPrepend text).

(** [e instanceof Error ? e.message : String(e)] *)
Definition error_text (e : thrown) : jsstring :=
  match e with
  | ErrorObject _ message => message
  | Thrown v => ToString v
  end.

Definition error_block (title msg : jsstring) : jsstring :=
  nl ++ lit "=== " ++ title ++ lit " ERROR ===" ++ nl ++ msg ++ nl.

Definition run {host : Host} (title : jsstring) (fn : Async ApiResult)
  : Async unit :=
  Set_ (SetBusy true)
    (finally
       (try_catch
          (r <- fn ;; appendLog title r)
          (fun e =>
             let msg := error_text e in
             setState (LogPrepend (error_block title msg))))
       (setState (SetBusy false))).

(** [r.body.items] once a guard has told that it is an array. *)
Definition items_of (b : value) : list value :=
  match get_prop b (lit "items") with
  | VArr l => l
  | _ => []
  end.

Inductive button :=
| Health | Swagger | ClearLog
| Login | Me | Logout
| LoadBooks | Upload
| ProcessOne | ProcessSelected
| SearchGet | SearchPost
| Stats.

Definition init_post (hdrs : option (list (jsstring * jsstring)))
  (b : option BodyInit) : option RequestInit :=
  Some {| method := Some (lit "POST"); init_headers := hdrs; init_body := b |}.

Definition json_headers : option (list (jsstring * jsstring)) :=
  Some [(lit "Content-Type", lit "application/json")].

(** [JSON.stringify(v)] as a request body.  The page calls it on the
    three objects it writes itself, two levels deep at most, for which no
    host is short of stack: the call gives the text of [JSON.text_of]
    there ([request_bodies_fit] below). *)
Definition json_body (v : value) : option BodyInit :=
  match JSON.text_of v 0 with
  | Some t => Some (BodyString t)
  | None => None
  end.

Definition loadBooks_fn (st : AppState) : Async ApiResult :=
  eq <- lift (URI.encodeURIComponent (q st)) ;;
  r <- apiFetch (lit "/api/books?Q=" ++ eq ++ lit "&Page=" ++
                 Num.toString (page st) ++ lit "&PageSize=" ++
                 Num.toString (pageSize st)) None ;;
  (if ok r && isPaged (body r)
   then setState (SetBooks (items_of (body r)))
   else Ret tt) ;;;
  Ret r.

Definition upload_fn (st : AppState) : Async ApiResult :=
  let fd := List.map (fun f => (lit "files", f))
              (match files st with Some fl => fl | None => [] end) in
  apiFetch (lit "/api/books/upload") (init_post None (Some (BodyFormData fd))).

Definition searchGet_fn (st : AppState) : Async ApiResult :=
  eq <- lift (URI.encodeURIComponent (searchQ st)) ;;
  r <- apiFetch (lit "/api/search?q=" ++ eq) None ;;
  (if ok r && hasItems (body r)
   then setState (SetSearchItems (items_of (body r)))
   else Ret tt) ;;;
  Ret r.

Definition searchPost_fn (st : AppState) : Async ApiResult :=
  r <- apiFetch (lit "/api/search")
         (init_post json_headers
            (json_body (VObj [(lit "q", VStr (searchQ st));
                              (lit "mode", VStr (lit "auto"))]))) ;;
  (if ok r && hasItems (body r)
   then setState (SetSearchItems (items_of (body r)))
   else Ret tt) ;;;
  Ret r.

(** The title and the function each button passes to [run]; [None] for
    the two buttons that do not go through [run]. *)
Definition action (b : button) (st : AppState)
  : option (jsstring * Async ApiResult) :=
  match b with
  | Health => Some (lit "Health", apiFetch (lit "/api/health") None)
  | Swagger => None
  | ClearLog => None
  | Login =>
      Some (lit "POST /api/auth/login",
            apiFetch (lit "/api/auth/login")
              (init_post json_headers
                 (json_body (VObj [(lit "username", VStr (username st));
                                   (lit "password", VStr (password st))]))))
  | Me => Some (lit "GET /api/auth/me", apiFetch (lit "/api/auth/me") None)
  | Logout =>
      Some (lit "POST /api/auth/logout",
            apiFetch (lit "/api/auth/logout") (init_post None None))
  | LoadBooks => Some (lit "GET /api/books", loadBooks_fn st)
  | Upload => Some (lit "POST /api/books/upload", upload_fn st)
  | ProcessOne =>
      let path := lit "/api/books/" ++ Num.toString (processId st) ++
                  lit "/process" in
      Some (lit "POST " ++ path, apiFetch path (init_post None None))
  | ProcessSelected =>
      Some (lit "POST /api/books/process-selected",
            apiFetch (lit "/api/books/process-selected")
              (init_post json_headers
                 (json_body
                    (VObj [(lit "ids",
                            VArr (List.map VNum
                                    (selectedIdList (selectedIds st))))]))))
  | SearchGet => Some (lit "GET /api/search?q=...", searchGet_fn st)
  | SearchPost => Some (lit "POST /api/search", searchPost_fn st)
  | Stats =>
      Some (lit "GET /api/stats/summary",
            apiFetch (lit "/api/stats/summary") None)
  end.

(** The [onClick] of each button, over the state of the render it
    belongs to. *)
Definition onClick {host : Host} (b : button) (st : AppState)
  : Async unit :=
  match b with
  | Swagger => WindowOpen (lit "/swagger") (lit "_blank") (Ret tt)
  | ClearLog => setState (SetLog [])
  | _ =>
      match action b st with
      | Some (title, fn) => run title fn
      | None => Ret tt
      end
  end.

(** The [disabled] attribute of each button. *)
Definition disabled (b : button) (st : AppState) : bool :=
  match b with
  | Upload =>
      busy st ||
      match files st with
      | None => true
      | Some fl => Nat.eqb (List.length fl) 0
      end
  | ProcessOne => busy st || Num.le (processId st) (Int 0)
  | ProcessSelected =>
      busy st || Nat.eqb (List.length (selectedIdList (selectedIds st))) 0
  | SearchGet | SearchPost =>
      busy st || Nat.eqb (List.length (Str.trim (searchQ st))) 0
  | _ => busy st
  end.

(** The [onChange] of each input: the text typed, or the files picked. *)
Inductive input :=
| InUsername (v : jsstring)
| InPassword (v : jsstring)
| InQ (v : jsstring)
| InPage (v : jsstring)
| InPageSize (v : jsstring)
| InFiles (f : option (list File))
| InProcessId (v : jsstring)
| InSelectedIds (v : jsstring)
| InSearchQ (v : jsstring).

Definition onChange (i : input) : Async unit :=
  match i with
  | InUsername v => setState (SetUsername v)
  | InPassword v => setState (SetPassword v)
  | InQ v => setState (SetQ v)
  | InPage v => setState (SetPage (parseInt (or_else v (lit "1")) 10))
  | InPageSize v => setState (SetPageSize (parseInt (or_else v (lit "20")) 10))
  | InFiles f => setState (SetFiles f)
  | InProcessId v => setState (SetProcessId (parseInt (or_else v (lit "0")) 10))
  | InSelectedIds v => setState (SetSelectedIds v)
  | InSearchQ v => setState (SetSearchQ v)
  end.

Local Close Scope async_scope.

(** ** Running asynchronous code *)

(** What a computation does, in order. *)
Inductive effect :=
| StateUpdate (u : update)
| Opened (target_url target : jsstring)
| Requested (req : Request).

Inductive outcome (A : Type) :=
| Returned (a : A)
| Threw (e : thrown)
| Suspended (k : fetch_outcome -> Async A).
Arguments Returned {A} a.
Arguments Threw {A} e.
Arguments Suspended {A} k.

(** [exec m net] runs [m], each [fetch] settling with the next answer of
    [net]; it stops at the end of [m], or at a [fetch] that [net] has no
    answer for.  It gives what [m] did, how it ended, and the answers
    left. *)
Fixpoint exec {A} (m : Async A) (net : list fetch_outcome)
  : list effect * outcome A * list fetch_outcome :=
  match m with
  | Ret a => ([], Returned a, net)
  | Throw e => ([], Threw e, net)
  | Set_ u k =>
      let '(t, o, rest) := exec k net in (StateUpdate u :: t, o, rest)
  | WindowOpen w tg k =>
      let '(t, o, rest) := exec k net in (Opened w tg :: t, o, rest)
  | Await req k =>
      match net with
      | [] => ([Requested req], Suspended k, [])
      | ans :: net' =>
          let '(t, o, rest) := exec (k ans) net' in (Requested req :: t, o, rest)
      end
  end.

Definition updates (t : list effect) : list update :=
  List.flat_map (fun e => match e with StateUpdate u => [u] | _ => [] end) t.

Definition is_log_update (u : update) : bool :=
  match u with
  | LogPrepend _ | SetLog _ => true
  | _ => false
  end.

(** ** The page as a transition system *)

(** The state between two events: the component state of the last
    render, the continuations of the calls in flight, the windows opened
    and the rejections that no handler caught. *)
Record Config := {
  app : AppState;
  inflight : list (fetch_outcome -> Async unit);
  windows : list (jsstring * jsstring);
  unhandled : list thrown
}.

Definition start : Config :=
  {| app := initial; inflight := []; windows := []; unhandled := [] |}.

(** Run a handler, or the continuation of a settled call, up to its end or
    its next [await]. *)
Fixpoint drive (m : Async unit) (c : Config) : Config :=
  match m with
  | Ret _ => c
  | Throw e =>
      {| app := app c; inflight := inflight c; windows := windows c;
         unhandled := unhandled c ++ [e] |}
  | Set_ u k =>
      drive k {| app := apply u (app c); inflight := inflight c;
                 windows := windows c; unhandled := unhandled c |}
  | WindowOpen w tg k =>
      drive k {| app := app c; inflight := inflight c;
                 windows := windows c ++ [(w, tg)]; unhandled := unhandled c |}
  | Await _ k =>
      {| app := app c; inflight := inflight c ++ [k]; windows := windows c;
         unhandled := unhandled c |}
  end.

Inductive event :=
| Click (b : button)
| Input (i : input)
| Settle (answer : fetch_outcome).

(** A button answers a click only while it is not disabled; an input can
    always be edited; any call in flight may settle, with any answer. *)
Inductive step {host : Host} : Config -> event -> Config -> Prop :=
| step_click b c :
    disabled b (app c) = false ->
    step c (Click b) (drive (onClick b (app c)) c)
| step_input i c :
    step c (Input i) (drive (onChange i) c)
| step_settle c before k after answer :
    inflight c = before ++ k :: after ->
    step c (Settle answer)
      (drive (k answer)
         {| app := app c; inflight := before ++ after; windows := windows c;
            unhandled := unhandled c |}).

Inductive reachable {host : Host} : Config -> Prop :=
| reach_start : reachable start
| reach_step c e c' : reachable c -> step c e c' -> reachable c'.

(** ** The landing page ([src/App.tsx]) *)

Module Landing.

(** [fetch("/api/health")]: no init, so the method, the headers and the
    body are the defaults of [fetch], and the credentials go to the same
    origin only. *)
Definition request : Request :=
  {| url := lit "/api/health";
     req_method := None;
     req_headers := [];
     req_body := None;
     credentials := lit "same-origin" |}.

Local Open Scope async_scope.

(** The [onClick] of the Test API button.  It ends by [alert] of a text;
    the result here is that text, the undefined of [JSON.stringify] read
    as [alert] prints it.  Nothing is caught: what [fetch], [r.json()] or
    [JSON.stringify] throws is thrown out of the handler. *)
Definition onClick {host : Host} : Async jsstring :=
  r <- fetch request ;;
  data <- Response_json r ;;
  text <- lift (JSON.stringify data 0) ;;
  Ret (interpolate text).

Local Close Scope async_scope.

End Landing.

(** ** The proxy of the development server ([vite.config.ts]) *)

Module Vite.

Definition API_TARGET : jsstring := lit "http://37.237.229.213".

(** [server.proxy] *)
Definition proxy : list (jsstring * jsstring) :=
  [(lit "/api", API_TARGET);
   (lit "/swagger", API_TARGET);
   (lit "/uploads", API_TARGET)].

(** [server.proxy] of the other configuration file, which has the one
    key. *)
Definition proxy_api_only : list (jsstring * jsstring) :=
  [(lit "/api", lit "37.237.229.213")].

(** What becomes of a request at the development server. *)
Inductive routed :=
| Forwarded (target : jsstring)
| ProxyError
| NotProxied.

(** A target the proxy can connect to names its protocol. *)
Definition has_protocol (target : jsstring) : bool :=
  Str.starts_with (lit "http://") target ||
  Str.starts_with (lit "https://") target.

(** A request goes to the first key its URL starts with, and to no key
    when it starts with none: the development server then serves it
    itself.  It is forwarded to the target of that key; a target that
    names no protocol gives the proxy no host to connect to, and the
    development server answers the request with an error of its own. *)
Fixpoint forwarded (table : list (jsstring * jsstring)) (u : jsstring)
  : routed :=
  match table with
  | [] => NotProxied
  | (key, target) :: rest =>
      if Str.starts_with key u
      then if has_protocol target then Forwarded target else ProxyError
      else forwarded rest u
  end.

End Vite.

(** ** What the properties are stated with *)

(** An object-like value: [typeof] says "object" and it is not [null]. *)
Definition object_like (x : value) : Prop :=
  (exists props, x = VObj props) \/ (exists xs, x = VArr xs).

Definition is_number (v : value) : Prop := exists n, v = VNum n.

Definition is_array (v : value) : Prop := exists l, v = VArr l.

Definition paged_example : value :=
  VObj [(lit "total", VNum (Int 1)); (lit "page", VNum (Int 1));
        (lit "pageSize", VNum (Int 20)); (lit "items", VArr [])].

(** "Finite and strictly positive", said of a Number. *)
Definition finite_positive (n : number) : bool :=
  match n with
  | Fin x => 0 <? Qnum x
  | _ => false
  end.

(** The selected ids as the specification words them: entry by entry, the
    trimmed entry is read as a base-10 integer and kept when the result
    is finite and strictly positive. *)
Fixpoint ids_of_entries (entries : list jsstring) : list number :=
  match entries with
  | [] => []
  | e :: rest =>
      let n := parseInt (Str.trim e) 10 in
      if finite_positive n then n :: ids_of_entries rest
      else ids_of_entries rest
  end.

(** The text of a run of decimal digits. *)
Definition decimal (ds : list Z) : jsstring := List.map Str.digit_char ds.

Definition all_digits (ds : list Z) : Prop :=
  Forall (fun d => 0 <= d <= 9) ds.

(** What follows an integer prefix: nothing, or a code unit that is not a
    decimal digit. *)
Definition ends_prefix (rest : jsstring) : Prop :=
  match rest with
  | [] => True
  | c :: _ => JSON.is_dec_digit c = false
  end.

Definition two_53 : Z := 9007199254740992.

(** The content type a response declares; none declared reads as the
    empty text. *)
Definition content_type (res : Response) : jsstring :=
  match Headers_get (headers res) (lit "content-type") with
  | Some t => t
  | None => []
  end.

Definition declares_json (res : Response) : bool :=
  Str.includes (content_type res) (lit "application/json").

(** The decoding policy as the specification words it: a body declared
    as JSON is parsed as structured data, a malformed one being a fault;
    any other body is read as plain text. *)
Definition decoded_body (res : Response) : result value :=
  match payload res with
  | Err e => Err e
  | Ok text =>
      if declares_json res then
        match JSON.parse text with
        | Some v => Ok v
        | None => Err SyntaxError
        end
      else Ok (VStr text)
  end.

Definition envelope (res : Response) (b : value) : ApiResult :=
  {| ok := Response_ok res; api_status := status res; body := b |}.

(** A JSON text, written with ['] where the text has a double quote. *)
Definition json_text (s : string) : jsstring :=
  List.map (fun c => if N.eqb c 39 then 34%N else c) (lit s).

(** Sample responses, for the examples. *)
Definition json_response (st : Z) (text : jsstring) : Response :=
  {| status := st;
     headers := [(lit "Content-Type", lit "application/json; charset=utf-8")];
     payload := Ok text |}.

Definition text_response (st : Z) (text : jsstring) : Response :=
  {| status := st;
     headers := [(lit "Content-Type", lit "text/plain")];
     payload := Ok text |}.

(** The log lines of a failed action: what [run] prepends in its
    [catch]. *)
Definition error_log (title : jsstring) (e : thrown) : jsstring :=
  error_block title (error_text e).

(** The state after a computation has run under the answers [net]: its
    state updates, applied in order. *)
Definition state_after (m : Async unit) (net : list fetch_outcome)
  (st : AppState) : AppState :=
  apply_all (updates (fst (fst (exec m net)))) st.


(** Updates of the form fields and of the two lists: neither the log
    nor the busy flag. *)
Definition quiet (u : update) : bool :=
  match u with
  | LogPrepend _ | SetLog _ | SetBusy _ => false
  | _ => true
  end.

Definition not_busy (u : update) : bool :=
  match u with
  | SetBusy _ => false
  | _ => true
  end.

(** [tame P n m]: on every path [m] awaits at most [n] times, and each of
    its state updates satisfies [P]. *)
Inductive tame {A} (P : update -> bool) : nat -> Async A -> Prop :=
| tame_ret n a : tame P n (Ret a)
| tame_throw n e : tame P n (Throw e)
| tame_set n u k : P u = true -> tame P n k -> tame P n (Set_ u k)
| tame_open n w tg k : tame P n k -> tame P n (WindowOpen w tg k)
| tame_await n req k :
    (forall ans, tame P n (k ans)) -> tame P (S n) (Await req k).

(** [closing n m]: on every path [m] awaits at most [n] times, touches
    the busy flag once, at its very end, to reset it, and returns. *)
Inductive closing : nat -> Async unit -> Prop :=
| closing_done n : closing n (Set_ (SetBusy false) (Ret tt))
| closing_set n u k :
    not_busy u = true -> closing n k -> closing n (Set_ u k)
| closing_open n w tg k : closing n k -> closing n (WindowOpen w tg k)
| closing_await n req k :
    (forall ans, closing n (k ans)) -> closing (S n) (Await req k).

(** What [run] does after [setBusy(true)]. *)
Definition run_tail {host : Host} (title : jsstring) (fn : Async ApiResult)
  : Async unit :=
  finally
    (try_catch
       (bind fn (fun r => appendLog title r))
       (fun e => setState (LogPrepend (error_block title (error_text e)))))
    (setState (SetBusy false)).

(** The invariant of the busy gate: nothing was thrown past a handler,
    and the flag is up exactly while one call is in flight, whose
    continuation resets it without awaiting again. *)
Definition gate (c : Config) : Prop :=
  unhandled c = [] /\
  ((busy (app c) = false /\ inflight c = []) \/
   (busy (app c) = true /\
    exists k, inflight c = [k] /\ forall ans, closing 0 (k ans))).

(** A listing response without the pagination fields. *)
Definition items_only : Response :=
  json_response 200 (json_text "{'items': [1, 2]}").


(** The page just after a click on the health button. *)
Definition clicked {host : Host} : Config :=
  drive (onClick Health (app start)) start.


(** The requests a computation has sent, in order. *)
Definition requests (t : list effect) : list Request :=
  List.flat_map (fun e => match e with Requested r => [r] | _ => [] end) t.

(** What every request of the console looks like: it goes under
    [/api/] with the credentials included; a text body is JSON, posted
    under the JSON content type; form data is posted with no content type
    of the page's own; without a body there is no header at all. *)
Definition console_request (req : Request) : Prop :=
  credentials req = lit "include" /\
  Str.starts_with (lit "/api/") (url req) = true /\
  match req_body req with
  | Some (BodyString _) =>
      req_method req = Some (lit "POST") /\
      req_headers req = [(lit "Content-Type", lit "application/json")]
  | Some (BodyFormData _) =>
      req_method req = Some (lit "POST") /\ req_headers req = []
  | None => req_headers req = []
  end.

(** [polite R m]: every request [m] can send satisfies [R]. *)
Inductive polite {A} (R : Request -> Prop) : Async A -> Prop :=
| polite_ret a : polite R (Ret a)
| polite_throw e : polite R (Throw e)
| polite_set u k : polite R k -> polite R (Set_ u k)
| polite_open w tg k : polite R k -> polite R (WindowOpen w tg k)
| polite_await req k :
    R req -> (forall ans, polite R (k ans)) -> polite R (Await req k).

(** A code unit that needs no escape in a URI component, or the percent
    sign of an escape. *)
Definition uri_safe (c : N) : Prop := URI.unreserved c = true \/ c = 37%N.

Definition is_surrogate (c : N) : bool :=
  JSON.is_high_surrogate c || JSON.is_low_surrogate c.

(** A code unit is below [2^16]. *)
Definition code_unit (c : N) : Prop := (c < 65536)%N.

(** A text of white space only, an empty one included. *)
Definition blank (s : jsstring) : Prop := Forall (fun c => Str.is_ws c = true) s.



(** What a button that is not disabled guarantees of the request its
    click sends. *)
Definition request_guarantee (b : button) (st : AppState) (req : Request)
  : Prop :=
  match b with
  | Upload =>
      exists fl,
        files st = Some fl /\ fl <> [] /\
        url req = lit "/api/books/upload" /\
        req_body req
        = Some (BodyFormData (List.map (fun f => (lit "files", f)) fl))
  | ProcessSelected =>
      selectedIdList (selectedIds st) <> [] /\
      Forall (fun n => finite_positive n = true)
        (selectedIdList (selectedIds st)) /\
      url req = lit "/api/books/process-selected" /\
      req_body req
      = json_body (VObj [(lit "ids",
                          VArr (List.map VNum
                                  (selectedIdList (selectedIds st))))])
  | ProcessOne =>
      Num.le (processId st) (Int 0) = false /\
      url req = lit "/api/books/" ++ Num.toString (processId st) ++
                lit "/process"
  | SearchGet | SearchPost => ~ blank (searchQ st)
  | _ => True
  end.

(** The updates of the two lists. *)
Definition list_update (u : update) : bool :=
  match u with
  | SetBooks _ | SetSearchItems _ => true
  | _ => false
  end.

(** The fields that the inputs of the page edit. *)
Definition form (st : AppState) :=
  (username st, password st, q st, page st, pageSize st, files st,
   processId st, selectedIds st, searchQ st).

(** [logging n m]: on every path [m] awaits at most [n] times, updates
    nothing but the two lists on its way, and ends by prepending one
    block, not empty, to the log and resetting the busy flag. *)
Inductive logging : nat -> Async unit -> Prop :=
| logging_end n text :
    text <> [] ->
    logging n (Set_ (LogPrepend text) (Set_ (SetBusy false) (Ret tt)))
| logging_set n u k :
    list_update u = true -> logging n k -> logging n (Set_ u k)
| logging_open n w tg k : logging n k -> logging n (WindowOpen w tg k)
| logging_await n req k :
    (forall ans, logging n (k ans)) -> logging (S n) (Await req k).

(** How each kind of event may change the page. *)
Definition event_effect (e : event) (c c' : Config) : Prop :=
  match e with
  | Input _ =>
      log (app c') = log (app c) /\ busy (app c') = busy (app c) /\
      books (app c') = books (app c) /\
      searchItems (app c') = searchItems (app c) /\
      inflight c' = inflight c
  | Click b =>
      form (app c') = form (app c) /\
      (log (app c') = log (app c) \/
       (b = ClearLog /\ log (app c') = []) \/
       (exists text, text <> [] /\ log (app c') = text ++ log (app c)))
  | Settle _ =>
      form (app c') = form (app c) /\
      exists text, text <> [] /\ log (app c') = text ++ log (app c)
  end.

(** The state after an edit of an input. *)
Definition edited (i : input) (st : AppState) : AppState :=
  state_after (onChange i) [] st.

(** The text of the fields of an object whose values are strings, as
    [JSON.stringify] writes them without a gap. *)
Definition text_fields (props : list (jsstring * jsstring)) : jsstring :=
  Str.join (lit ",")
    (List.map (fun kv => JSON.quote (fst kv) ++ lit ":" ++ JSON.quote (snd kv))
       props).

(** The object read back from such fields, one [CreateDataProperty] after
    the other. *)
Definition as_object (acc : list (jsstring * value))
  (props : list (jsstring * jsstring)) : list (jsstring * value) :=
  fold_left (fun a kv => JSON.obj_define a (fst kv) (VStr (snd kv))) props acc.

(** A password with a double quote and a backslash in it. *)
Definition awkward_password : jsstring := json_text "p'w\d".



(** The block [run] prepends for an envelope: the one [appendLog] builds,
    or the error block of what [appendLog] threw. *)
Definition logged {host : Host} (title : jsstring) (r : ApiResult)
  : jsstring :=
  match log_block title r with
  | Ok text => text
  | Err e => error_log title e
  end.





(** A host of little stack, for the examples: [JSON.stringify] takes a
    value four levels deep, [join] one of three. *)
Definition small_host : Host := {| spare_depth := 2; join_depth := 3 |}.

(** A parser that, when it accepts, has read at least one code unit. *)
Definition consumes (pv : jsstring -> option (value * jsstring)) : Prop :=
  forall s v rest, pv s = Some (v, rest) -> (List.length rest < List.length s)%nat.

(** * Properties *)

(** ** Strings *)

Lemma eqb_eq (a b : jsstring) : Str.eqb a b = true <-> a = b.
Proof.
  revert b; induction a as [|x a IH]; intros [|y b]; simpl;
    try (split; [discriminate | congruence]); try tauto.
  rewrite andb_true_iff, N.eqb_eq, IH.
  split; [intros [-> ->]; reflexivity | intros H; injection H; auto].
Qed.

Lemma eqb_refl (a : jsstring) : Str.eqb a a = true.
Proof. apply eqb_eq; reflexivity. Qed.

Lemma starts_with_iff (p s : jsstring) :
  Str.starts_with p s = true <-> exists r, s = p ++ r.
Proof.
  revert s; induction p as [|x p IH]; intros s; simpl.
  - split; [intros _; exists s; reflexivity | reflexivity].
  - destruct s as [|y s].
    + split; [discriminate | intros [r H]; discriminate].
    + rewrite andb_true_iff, N.eqb_eq, IH. split.
      * intros [-> [r ->]]. exists r; reflexivity.
      * intros [r H]. injection H as -> ->. split; [reflexivity | exists r; reflexivity].
Qed.

(** [includes] is the substring test. *)
Lemma includes_iff (s t : jsstring) :
  Str.includes s t = true <-> exists a c, s = a ++ t ++ c.
Proof.
  induction s as [|x s IH].
  - simpl. rewrite orb_false_r, starts_with_iff. split.
    + intros [r H]. exists [], r. exact H.
    + intros [a [c H]]. destruct a; [exists c; exact H | discriminate].
  - cbn [Str.includes]. rewrite orb_true_iff, starts_with_iff, IH. split.
    + intros [[r H] | [a [c H]]].
      * exists [], r. exact H.
      * exists (x :: a), c. simpl. rewrite H. reflexivity.
    + intros [[|y a] [c H]].
      * left. exists c. exact H.
      * right. injection H as -> H. exists a, c. exact H.
Qed.

Lemma includes_middle (a t c : jsstring) : Str.includes (a ++ t ++ c) t = true.
Proof. apply includes_iff. exists a, c. reflexivity. Qed.

(** ** The shape guards *)

Lemma typeof_number (v : value) :
  Str.eqb (typeof v) (lit "number") = true <-> is_number v.
Proof.
  destruct v as [| |b|n|t|xs|props]; cbn;
    try (split; [discriminate | intros [m H]; discriminate]).
  split; [intros _; exists n; reflexivity | reflexivity].
Qed.

Lemma isArray_iff (v : value) : Array_isArray v = true <-> is_array v.
Proof.
  destruct v as [| |b|n|t|xs|props]; cbn;
    try (split; [discriminate | intros [m H]; discriminate]).
  split; [intros _; exists xs; reflexivity | reflexivity].
Qed.

Lemma isRecord_iff (x : value) : isRecord x = true <-> object_like x.
Proof.
  unfold object_like.
  destruct x as [| |b|n|t|xs|props]; cbn;
    try (split; [discriminate | intros [[m H] | [m H]]; discriminate]).
  - split; [intros _; right; exists xs; reflexivity | reflexivity].
  - split; [intros _; left; exists props; reflexivity | reflexivity].
Qed.

(** C3. [isPaged x] is true exactly when [x] is object-like, its [total],
    [page] and [pageSize] fields are numbers and its [items] field is an
    array; it is true of [{total:1, page:1, pageSize:20, items:[]}] and
    false of [{items:[]}]. *)
Theorem isPaged_spec :
  (forall x,
     isPaged x = true <->
     object_like x /\
     is_number (get_prop x (lit "total")) /\
     is_number (get_prop x (lit "page")) /\
     is_number (get_prop x (lit "pageSize")) /\
     is_array (get_prop x (lit "items"))) /\
  isPaged paged_example = true /\
  isPaged (VObj [(lit "items", VArr [])]) = false.
Proof.
  split; [| split; reflexivity].
  intros x. unfold isPaged.
  rewrite <- isRecord_iff, <- !typeof_number, <- isArray_iff.
  destruct (isRecord x); cbn [negb].
  - rewrite !andb_true_iff. tauto.
  - split; [discriminate | intros [H _]; discriminate].
Qed.

(** C4. [hasItems x] is true exactly when [x] is object-like and its
    [items] field is an array, whatever its other fields; it is true of
    [{items:[1,2]}] and false of [{total:1}]. *)
Theorem hasItems_spec :
  (forall x,
     hasItems x = true <->
     object_like x /\ is_array (get_prop x (lit "items"))) /\
  (forall props l,
     own props (lit "items") = Some (VArr l) -> hasItems (VObj props) = true) /\
  hasItems (VObj [(lit "items", VArr [VNum (Int 1); VNum (Int 2)])]) = true /\
  hasItems (VObj [(lit "total", VNum (Int 1))]) = false.
Proof.
  split; [| split; [| split; reflexivity]].
  - intros x. unfold hasItems.
    rewrite andb_true_iff, isRecord_iff, isArray_iff. tauto.
  - intros props l H. unfold hasItems, get_prop. rewrite H. reflexivity.
Qed.

(** ** Splitting on commas *)

Lemma split_go_cons (sep : jsstring) (skip : nat) (cur s : jsstring) :
  exists p rest, Str.split_go sep skip cur s = p :: rest.
Proof.
  revert skip cur; induction s as [|c s IH]; intros skip cur; simpl.
  - eexists; eexists; reflexivity.
  - destruct skip as [|k]; [destruct (Str.starts_with sep (c :: s))|];
      try apply IH; eexists; eexists; reflexivity.
Qed.

Lemma join_cons (sep p : jsstring) (l : list jsstring) :
  l <> [] -> Str.join sep (p :: l) = p ++ sep ++ Str.join sep l.
Proof. destruct l; [congruence | reflexivity]. Qed.

Lemma split_go_comma_join (cur s : jsstring) :
  Str.join [44%N] (Str.split_go [44%N] 0 cur s) = rev cur ++ s.
Proof.
  revert cur; induction s as [|c s IH]; intros cur.
  - simpl. rewrite app_nil_r. reflexivity.
  - cbn [Str.split_go Str.starts_with List.length Nat.sub].
    destruct (N.eqb_spec 44 c) as [<- | Hc]; cbn [andb].
    + destruct (split_go_cons [44%N] 0 [] s) as [p [rest E]].
      rewrite join_cons by (rewrite E; discriminate).
      rewrite IH. reflexivity.
    + rewrite IH. simpl. rewrite <- app_assoc. reflexivity.
Qed.

Lemma split_go_comma_free (cur s : jsstring) :
  ~ In 44%N cur ->
  forall e, In e (Str.split_go [44%N] 0 cur s) -> ~ In 44%N e.
Proof.
  revert cur; induction s as [|c s IH]; intros cur Hcur e.
  - simpl. intros [<- | []]. rewrite <- in_rev. exact Hcur.
  - cbn [Str.split_go Str.starts_with List.length Nat.sub].
    destruct (N.eqb_spec 44 c) as [<- | Hc]; cbn [andb].
    + intros [<- | H].
      * rewrite <- in_rev. exact Hcur.
      * apply (IH [] (fun f => f) e H).
    + apply IH. intros [H | H]; [congruence | exact (Hcur H)].
Qed.

(** ** Rounding an integer to a Number *)

Lemma F_of_Z_exact (z : Z) : Z.abs z < two_53 -> F_of_Z z = Int z.
Proof.
  intros H. unfold F_of_Z.
  destruct (Z.leb_spec (Z.log2 (Z.abs z) + 1) 53) as [_ | Hb]; [reflexivity |].
  exfalso.
  assert (Hpos : 0 < Z.abs z).
  { destruct (Z.eq_dec (Z.abs z) 0) as [E | E]; [rewrite E in Hb; simpl in Hb |]; lia. }
  assert (Z.log2 (Z.abs z) < 53); [| lia].
  apply Z.log2_lt_pow2; [exact Hpos | exact H].
Qed.

Lemma F_of_Z_positive (z : Z) :
  0 < z -> Number_isFinite (F_of_Z z) = true -> finite_positive (F_of_Z z) = true.
Proof.
  intros Hz. unfold F_of_Z.
  rewrite (Z.abs_eq z) by lia.
  destruct (Z.log2 z + 1 <=? 53) eqn:Hb.
  - intros _. simpl. apply Z.ltb_lt. exact Hz.
  - apply Z.leb_gt in Hb.
    set (sh := Z.log2 z + 1 - 53).
    set (qu := Z.shiftr z sh).
    set (q' := if _ : bool then qu + 1 else qu).
    destruct (two_1024 <=? Z.shiftl q' sh).
    + destruct (z <? 0); discriminate.
    + intros _. simpl. apply Z.ltb_lt.
      assert (Hsh : 0 < sh) by (unfold sh; lia).
      assert (Hqu : 0 < qu).
      { unfold qu. rewrite Z.shiftr_div_pow2 by lia.
        apply Z.div_str_pos. split; [apply Z.pow_pos_nonneg; lia |].
        apply Z.le_trans with (2 ^ Z.log2 z).
        - apply Z.pow_le_mono_r; unfold sh; lia.
        - apply Z.log2_spec. exact Hz. }
      assert (Hq' : 0 < q') by (unfold q'; destruct (_ : bool); lia).
      rewrite Z.sgn_pos by lia.
      rewrite Z.shiftl_mul_pow2 by lia.
      assert (0 < 2 ^ sh) by (apply Z.pow_pos_nonneg; lia).
      nia.
Qed.

(** The two roundings agree where both apply; a tie goes to the even
    side and an overflow is infinite. *)
Example F_of_Z_rounds :
  F_of_Z 9007199254740993 = Int 9007199254740992 /\
  F_of_Z 9007199254740995 = Int 9007199254740996 /\
  F_of_Z (- 9007199254740993) = Int (- 9007199254740992) /\
  F_of_Z (10 ^ 309) = PosInf /\
  F_of_Z 123456789012345678901234567890
  = F_of_ratio false 123456789012345678901234567890 1 /\
  F_of_Z (2 ^ 1024 - 2 ^ 970 - 1) = F_of_ratio false (2 ^ 1024 - 2 ^ 970 - 1) 1 /\
  F_of_Z (2 ^ 1024 - 2 ^ 970) = PosInf /\
  F_of_ratio false (2 ^ 1024 - 2 ^ 970) 1 = PosInf.
Proof. vm_compute. repeat split; reflexivity. Qed.

(** ** parseInt on a decimal prefix *)

Lemma digit_cases (d : Z) :
  0 <= d <= 9 ->
  d = 0 \/ d = 1 \/ d = 2 \/ d = 3 \/ d = 4 \/ d = 5 \/ d = 6 \/ d = 7 \/
  d = 8 \/ d = 9.
Proof. lia. Qed.

Ltac each_digit H :=
  apply digit_cases in H;
  repeat (destruct H as [H | H]); subst.

Lemma digit_value_char (d : Z) :
  0 <= d <= 9 -> digit_value (Str.digit_char d) = Some d.
Proof. intros H. each_digit H; reflexivity. Qed.

Lemma digit_char_plain (d : Z) :
  0 <= d <= 9 ->
  Str.is_ws (Str.digit_char d) = false /\
  N.eqb (Str.digit_char d) 43 = false /\
  N.eqb (Str.digit_char d) 45 = false.
Proof. intros H. each_digit H; repeat split; reflexivity. Qed.

Lemma digit_prefix_stops (rest : jsstring) :
  ends_prefix rest -> digit_prefix 10 rest = [].
Proof.
  destruct rest as [|c rest]; [reflexivity |].
  unfold ends_prefix, JSON.is_dec_digit. intros H. simpl.
  unfold digit_value. rewrite H.
  destruct ((97 <=? Z.of_N c) && (Z.of_N c <=? 122)) eqn:E1.
  - apply andb_true_iff in E1. destruct E1 as [E1 _]. apply Z.leb_le in E1.
    destruct (Z.ltb_spec (Z.of_N c - 87) 10); [lia | reflexivity].
  - destruct ((65 <=? Z.of_N c) && (Z.of_N c <=? 90)) eqn:E2; [| reflexivity].
    apply andb_true_iff in E2. destruct E2 as [E2 _]. apply Z.leb_le in E2.
    destruct (Z.ltb_spec (Z.of_N c - 55) 10); [lia | reflexivity].
Qed.

Lemma digit_prefix_decimal (ds : list Z) (rest : jsstring) :
  all_digits ds -> ends_prefix rest ->
  digit_prefix 10 (decimal ds ++ rest) = ds.
Proof.
  intros Hds Hrest. induction Hds as [|d ds Hd _ IH].
  - apply digit_prefix_stops. exact Hrest.
  - change (decimal (d :: ds) ++ rest)
      with (Str.digit_char d :: (decimal ds ++ rest)).
    cbn [digit_prefix]. rewrite (digit_value_char d Hd), IH.
    destruct (Z.ltb_spec d 10); [reflexivity | lia].
Qed.

(** On a text that starts, after an optional plus sign, with decimal
    digits of non-zero value, [parseInt] gives the Number for the value of
    the longest run of digits. *)
Lemma parseInt_prefix (plus : bool) (ds : list Z) (rest : jsstring) :
  ds <> [] -> all_digits ds -> ends_prefix rest -> math_int 10 ds <> 0 ->
  parseInt ((if plus then [43%N] else []) ++ decimal ds ++ rest) 10
  = F_of_Z (math_int 10 ds).
Proof.
  intros Hne Hds Hrest Hv.
  assert (Hpre := digit_prefix_decimal ds rest Hds Hrest).
  destruct ds as [|d ds']; [congruence |].
  assert (Hd : 0 <= d <= 9) by (inversion Hds; assumption).
  destruct (digit_char_plain d Hd) as [Hws [H43 H45]].
  unfold parseInt.
  change (negb (10 =? 0) && ((10 <? 2) || (36 <? 10))) with false.
  change ((10 =? 0) || (10 =? 16)) with false.
  cbn [andb].
  change (10 =? 0) with false.
  cbv iota.
  destruct plus.
  - change ([43%N] ++ decimal (d :: ds') ++ rest)
      with (43%N :: (decimal (d :: ds') ++ rest)).
    cbn [Str.trim_start]. change (Str.is_ws 43) with false. cbv iota.
    change (N.eqb 43 45) with false. change (N.eqb 43 43) with true.
    cbn [orb]. cbv iota. cbv beta zeta.
    rewrite Hpre.
    destruct (Z.eqb_spec (math_int 10 (d :: ds')) 0); [contradiction | reflexivity].
  - change ([] ++ decimal (d :: ds') ++ rest)
      with (Str.digit_char d :: (decimal ds' ++ rest)).
    change (decimal (d :: ds') ++ rest)
      with (Str.digit_char d :: (decimal ds' ++ rest)) in Hpre.
    cbn [Str.trim_start]. rewrite Hws.
    rewrite H43, H45. cbn [orb]. cbv beta zeta.
    rewrite Hpre.
    destruct (Z.eqb_spec (math_int 10 (d :: ds')) 0); [contradiction | reflexivity].
Qed.

(** ** The selected-ids parser *)

Lemma kept_iff_finite_positive (n : number) :
  Number_isFinite n && Num.gt n (Int 0) = finite_positive n.
Proof.
  destruct n as [| | | |x]; try reflexivity.
  unfold Num.gt, Num.lt, Q_ltb. simpl. rewrite Z.mul_1_r. reflexivity.
Qed.

Lemma filter_map_entries (entries : list jsstring) :
  List.filter (fun n => Number_isFinite n && Num.gt n (Int 0))
    (List.map (fun e => parseInt (Str.trim e) 10) entries)
  = ids_of_entries entries.
Proof.
  induction entries as [|e rest IH]; [reflexivity |].
  cbn [List.map List.filter ids_of_entries].
  rewrite kept_iff_finite_positive, IH. reflexivity.
Qed.

(** C5. The selected-ids parser cuts the text at its commas (the entries
    joined by commas give the text back and hold no comma), reads each
    trimmed entry as a base-10 integer (a run of digits gives the Number
    of its base-10 value) and keeps the results that are finite and
    strictly positive; on ["1, 2, x, -3, 4"] it yields 1, 2, 4. *)
Theorem selectedIdList_spec :
  (forall s,
     Str.join (lit ",") (Str.split s (lit ",")) = s /\
     (forall e, In e (Str.split s (lit ",")) -> ~ In 44%N e) /\
     selectedIdList s = ids_of_entries (Str.split s (lit ","))) /\
  (forall ds,
     ds <> [] -> all_digits ds -> math_int 10 ds <> 0 ->
     parseInt (decimal ds) 10 = F_of_Z (math_int 10 ds)) /\
  (forall n s, In n (selectedIdList s) -> finite_positive n = true) /\
  selectedIdList (lit "1, 2, x, -3, 4") = [Int 1; Int 2; Int 4].
Proof.
  split; [| split; [| split]].
  - intros s. change (lit ",") with [44%N]. unfold Str.split.
    split; [| split].
    + apply (split_go_comma_join [] s).
    + apply split_go_comma_free. intros [].
    + apply filter_map_entries.
  - intros ds Hne Hds Hv.
    rewrite <- (parseInt_prefix false ds [] Hne Hds I Hv).
    simpl. rewrite app_nil_r. reflexivity.
  - intros n s H. unfold selectedIdList in H.
    apply filter_In in H. destruct H as [_ H].
    rewrite kept_iff_finite_positive in H. exact H.
  - vm_compute. reflexivity.
Qed.

(** C10, as it is worded, fails: an entry that begins with an integer is
    dropped when that integer is not positive, as ["-3abc"] is. *)
Lemma signed_prefix_dropped :
  ~ (forall entry z rest,
       Str.trim entry = Str.of_Z z ++ rest -> ends_prefix rest ->
       In (Int z) (selectedIdList entry)).
Proof.
  intros H.
  specialize (H (lit "-3abc") (-3) (lit "abc") eq_refl eq_refl).
  vm_compute in H. exact H.
Qed.

(** C10, amended. An entry whose trimmed text begins, after an optional
    plus sign, with a run of decimal digits of strictly positive value is
    kept whenever the Number of that value is finite, and contributes that
    Number, which is the value itself below [2^53]; what follows the
    digits is ignored. *)
Theorem positive_prefix_kept (plus : bool) (s entry : jsstring)
  (ds : list Z) (rest : jsstring) :
  In entry (Str.split s (lit ",")) ->
  Str.trim entry = (if plus then [43%N] else []) ++ decimal ds ++ rest ->
  ds <> [] -> all_digits ds -> ends_prefix rest ->
  0 < math_int 10 ds ->
  Number_isFinite (F_of_Z (math_int 10 ds)) = true ->
  In (F_of_Z (math_int 10 ds)) (selectedIdList s) /\
  (math_int 10 ds < two_53 -> F_of_Z (math_int 10 ds) = Int (math_int 10 ds)).
Proof.
  intros Hin Htrim Hne Hds Hrest Hpos Hfin. split.
  - unfold selectedIdList. apply filter_In. split.
    + apply in_map_iff. exists entry. split; [| exact Hin].
      rewrite Htrim. apply parseInt_prefix; auto. lia.
    + rewrite kept_iff_finite_positive. apply F_of_Z_positive; assumption.
  - intros Hsmall. apply F_of_Z_exact. lia.
Qed.

Lemma positive_prefix_kept_witness :
  In (Int 3) (selectedIdList (lit "7, 3abc ,x")) /\
  In (Int 2) (selectedIdList (lit "2.5")).
Proof.
  split.
  - apply (positive_prefix_kept false (lit "7, 3abc ,x") (lit " 3abc ")
             [3] (lit "abc"));
      try reflexivity; try lia.
    + vm_compute. tauto.
    + discriminate.
    + repeat constructor; lia.
  - apply (positive_prefix_kept false (lit "2.5") (lit "2.5") [2] (lit ".5"));
      try reflexivity; try lia.
    + vm_compute. tauto.
    + discriminate.
    + repeat constructor; lia.
Defined.

(** ** JSON.parse has fuel enough *)

Lemma skip_ws_length (s : jsstring) :
  (List.length (JSON.skip_ws s) <= List.length s)%nat.
Proof.
  induction s as [|c s IH]; simpl; [lia |].
  destruct (JSON.is_json_ws c); simpl; lia.
Qed.

Lemma head_is_tl (c : N) (s : jsstring) :
  JSON.head_is c s = true -> List.length s = S (List.length (List.tl s)).
Proof. destruct s; simpl; [discriminate | reflexivity]. Qed.

Lemma tl_length (s : jsstring) : (List.length (List.tl s) <= List.length s)%nat.
Proof. destruct s; simpl; lia. Qed.

Lemma span_digits_length (s : jsstring) :
  (List.length (snd (JSON.span_digits s)) <= List.length s)%nat /\
  (fst (JSON.span_digits s) <> [] ->
   (List.length (snd (JSON.span_digits s)) < List.length s)%nat).
Proof.
  induction s as [|c s [IH _]]; simpl.
  - split; [lia | congruence].
  - destruct (JSON.is_dec_digit c).
    + destruct (JSON.span_digits s) as [ds rest]. simpl in *. split; lia.
    + simpl. split; [lia | congruence].
Qed.

Lemma parse_frac_length s fr rest :
  JSON.parse_frac s = Some (fr, rest) -> (List.length rest <= List.length s)%nat.
Proof.
  unfold JSON.parse_frac. destruct (JSON.head_is 46 s).
  - destruct (span_digits_length (List.tl s)) as [H _].
    destruct (JSON.span_digits (List.tl s)) as [ds r]. simpl in H.
    destruct ds; [discriminate |]. intros E. injection E as _ <-.
    pose proof (tl_length s). lia.
  - intros E. injection E as _ <-. lia.
Qed.

Lemma parse_exp_length s ex rest :
  JSON.parse_exp s = Some (ex, rest) -> (List.length rest <= List.length s)%nat.
Proof.
  unfold JSON.parse_exp. destruct (_ || _).
  - set (s2 := if _ : bool then _ else _).
    assert (H2 : (List.length s2 <= List.length s)%nat).
    { unfold s2. pose proof (tl_length s). pose proof (tl_length (List.tl s)).
      destruct (_ || _); lia. }
    destruct (span_digits_length s2) as [H _].
    destruct (JSON.span_digits s2) as [ds r]. simpl in H.
    destruct ds; [discriminate |]. intros E. injection E as _ <-. lia.
  - intros E. injection E as _ <-. lia.
Qed.

Lemma parse_number_consumes s x rest :
  JSON.parse_number s = Some (x, rest) -> (List.length rest < List.length s)%nat.
Proof.
  unfold JSON.parse_number.
  set (s1 := if _ : bool then _ else _).
  assert (H1 : (List.length s1 <= List.length s)%nat).
  { unfold s1. pose proof (tl_length s). destruct (JSON.head_is 45 s); lia. }
  destruct (span_digits_length s1) as [_ H].
  destruct (JSON.span_digits s1) as [int s2]. simpl in H.
  destruct int as [|d0 more]; [discriminate |].
  specialize (H ltac:(discriminate)).
  destruct (_ && _); [discriminate |].
  destruct (JSON.parse_frac s2) as [[fr s3] |] eqn:Ef; [| discriminate].
  apply parse_frac_length in Ef.
  destruct (JSON.parse_exp s3) as [[ex r] |] eqn:Ee; [| discriminate].
  apply parse_exp_length in Ee.
  intros E. injection E as _ <-. lia.
Qed.

Lemma cons_char_some c r cs rest :
  JSON.cons_char c r = Some (cs, rest) ->
  exists cs', r = Some (cs', rest).
Proof.
  destruct r as [[cs' rest'] |]; simpl; [| discriminate].
  intros E. injection E as _ <-. exists cs'. reflexivity.
Qed.

Lemma parse_chars_consumes_upto (n : nat) :
  forall s cs rest,
    (List.length s <= n)%nat ->
    JSON.parse_chars s = Some (cs, rest) ->
    (List.length rest < List.length s)%nat.
Proof.
  induction n as [|n IH]; intros s cs rest Hn.
  - destruct s; [discriminate | simpl in Hn; lia].
  - destruct s as [|c s']; [discriminate |]. cbn [JSON.parse_chars].
    simpl in Hn.
    destruct (N.eqb c 34).
    { intros E. injection E as _ <-. simpl. lia. }
    destruct (N.eqb c 92).
    + destruct s' as [|e s'']; [discriminate |]. simpl in Hn.
      destruct (N.eqb e 117).
      * destruct s'' as [|a [|b [|c' [|d s4]]]]; try discriminate.
        destruct (JSON.hex4 a b c' d); [| discriminate].
        intros E. apply cons_char_some in E. destruct E as [cs' E].
        apply IH in E; simpl in *; lia.
      * destruct (JSON.simple_escape e); [| discriminate].
        intros E. apply cons_char_some in E. destruct E as [cs' E].
        apply IH in E; simpl in *; lia.
    + destruct (Z.of_N c <? 32); [discriminate |].
      intros E. apply cons_char_some in E. destruct E as [cs' E].
      apply IH in E; simpl in *; lia.
Qed.

Lemma parse_chars_consumes s cs rest :
  JSON.parse_chars s = Some (cs, rest) ->
  (List.length rest < List.length s)%nat.
Proof. apply (parse_chars_consumes_upto (List.length s)). lia. Qed.

Lemma expect_consumes word v s v' rest :
  word <> [] ->
  JSON.expect word v s = Some (v', rest) ->
  (List.length rest < List.length s)%nat.
Proof.
  intros Hw. unfold JSON.expect.
  destruct (Str.starts_with word s) eqn:E; [| discriminate].
  apply starts_with_iff in E. destruct E as [r ->].
  intros H. injection H as _ <-.
  rewrite skipn_app, skipn_all, Nat.sub_diag. simpl.
  rewrite length_app. destruct word; [congruence | simpl; lia].
Qed.

Section Fuel.

Variables pv1 pv2 : jsstring -> option (value * jsstring).
Variable L : nat.
Hypothesis agree :
  forall s, (List.length s < L)%nat -> pv1 s = pv2 s.
Hypothesis pv1_consumes : consumes pv1.

Lemma elements_consumes n acc s v rest :
  JSON.elements pv1 n acc s = Some (v, rest) ->
  (List.length rest < List.length s)%nat.
Proof.
  revert acc s; induction n as [|n IH]; intros acc s; cbn [JSON.elements];
    [discriminate |].
  destruct (pv1 s) as [[x r] |] eqn:E; [| discriminate].
  apply pv1_consumes in E. pose proof (skip_ws_length r) as Hw.
  pose proof (tl_length (JSON.skip_ws r)) as Ht. cbv zeta.
  destruct (JSON.head_is 44 (JSON.skip_ws r)).
  - intros H. apply IH in H. lia.
  - destruct (JSON.head_is 93 (JSON.skip_ws r)); [| discriminate].
    intros H. injection H as _ <-. lia.
Qed.

Lemma members_consumes n acc s v rest :
  JSON.members pv1 n acc s = Some (v, rest) ->
  (List.length rest < List.length s)%nat.
Proof.
  revert acc s; induction n as [|n IH]; intros acc s; cbn [JSON.members];
    [discriminate |]. cbv zeta.
  pose proof (skip_ws_length s) as Hs.
  destruct (JSON.head_is 34 (JSON.skip_ws s)) eqn:Hq; [| discriminate].
  apply head_is_tl in Hq.
  destruct (JSON.parse_chars (List.tl (JSON.skip_ws s))) as [[k s2] |] eqn:Ek;
    [| discriminate].
  apply parse_chars_consumes in Ek. pose proof (skip_ws_length s2) as H2.
  destruct (JSON.head_is 58 (JSON.skip_ws s2)) eqn:Hc; [| discriminate].
  apply head_is_tl in Hc.
  destruct (pv1 (List.tl (JSON.skip_ws s2))) as [[x r] |] eqn:E; [| discriminate].
  apply pv1_consumes in E. pose proof (skip_ws_length r) as Hw.
  pose proof (tl_length (JSON.skip_ws r)) as Ht.
  destruct (JSON.head_is 44 (JSON.skip_ws r)).
  - intros H. apply IH in H. lia.
  - destruct (JSON.head_is 125 (JSON.skip_ws r)); [| discriminate].
    intros H. injection H as _ <-. lia.
Qed.

Lemma parse_step_consumes n : consumes (JSON.parse_step pv1 n).
Proof.
  intros s v rest. unfold JSON.parse_step. cbv zeta.
  pose proof (skip_ws_length s) as Hs.
  pose proof (tl_length (JSON.skip_ws s)) as Ht.
  destruct (JSON.head_is 110 _);
    [intros H; apply expect_consumes in H; [lia | discriminate] |].
  destruct (JSON.head_is 116 _);
    [intros H; apply expect_consumes in H; [lia | discriminate] |].
  destruct (JSON.head_is 102 _);
    [intros H; apply expect_consumes in H; [lia | discriminate] |].
  destruct (JSON.head_is 34 _) eqn:Hq.
  { apply head_is_tl in Hq.
    destruct (JSON.parse_chars _) as [[cs r] |] eqn:E; [| discriminate].
    apply parse_chars_consumes in E. intros H. injection H as _ <-. lia. }
  pose proof (skip_ws_length (List.tl (JSON.skip_ws s))) as Hw.
  pose proof (tl_length (JSON.skip_ws (List.tl (JSON.skip_ws s)))) as Hu.
  destruct (JSON.head_is 91 _) eqn:Hb.
  { apply head_is_tl in Hb.
    destruct (JSON.head_is 93 _).
    - intros H. injection H as _ <-. lia.
    - intros H. apply elements_consumes in H. lia. }
  destruct (JSON.head_is 123 _) eqn:Hc.
  { apply head_is_tl in Hc.
    destruct (JSON.head_is 125 _).
    - intros H. injection H as _ <-. lia.
    - intros H. apply members_consumes in H. lia. }
  destruct (JSON.parse_number _) as [[x r] |] eqn:E; [| discriminate].
  apply parse_number_consumes in E. intros H. injection H as _ <-. lia.
Qed.

Lemma elements_agree n1 :
  forall n2 acc s,
    (List.length s < L)%nat ->
    (List.length s < n1)%nat -> (List.length s < n2)%nat ->
    JSON.elements pv1 n1 acc s = JSON.elements pv2 n2 acc s.
Proof.
  induction n1 as [|n1 IH]; intros n2 acc s HL H1 H2; [lia |].
  destruct n2 as [|n2]; [lia |]. cbn [JSON.elements].
  rewrite <- (agree s HL).
  destruct (pv1 s) as [[x r] |] eqn:E; [| reflexivity].
  apply pv1_consumes in E. pose proof (skip_ws_length r) as Hw.
  pose proof (tl_length (JSON.skip_ws r)) as Ht. cbv zeta.
  destruct (JSON.head_is 44 (JSON.skip_ws r)); [| reflexivity].
  apply IH; lia.
Qed.

Lemma members_agree n1 :
  forall n2 acc s,
    (List.length s < L)%nat ->
    (List.length s < n1)%nat -> (List.length s < n2)%nat ->
    JSON.members pv1 n1 acc s = JSON.members pv2 n2 acc s.
Proof.
  induction n1 as [|n1 IH]; intros n2 acc s HL H1 H2; [lia |].
  destruct n2 as [|n2]; [lia |]. cbn [JSON.members]. cbv zeta.
  pose proof (skip_ws_length s) as Hs.
  destruct (JSON.head_is 34 (JSON.skip_ws s)) eqn:Hq; [| reflexivity].
  apply head_is_tl in Hq.
  destruct (JSON.parse_chars (List.tl (JSON.skip_ws s))) as [[k s2] |] eqn:Ek;
    [| reflexivity].
  apply parse_chars_consumes in Ek. pose proof (skip_ws_length s2) as Hs2.
  destruct (JSON.head_is 58 (JSON.skip_ws s2)) eqn:Hc; [| reflexivity].
  apply head_is_tl in Hc.
  rewrite <- (agree (List.tl (JSON.skip_ws s2))) by lia.
  destruct (pv1 (List.tl (JSON.skip_ws s2))) as [[x r] |] eqn:E; [| reflexivity].
  apply pv1_consumes in E. pose proof (skip_ws_length r) as Hw.
  pose proof (tl_length (JSON.skip_ws r)) as Ht.
  destruct (JSON.head_is 44 (JSON.skip_ws r)); [| reflexivity].
  apply IH; lia.
Qed.

Lemma parse_step_agree n1 n2 s :
  (List.length s <= L)%nat ->
  (List.length s <= n1)%nat -> (List.length s <= n2)%nat ->
  JSON.parse_step pv1 n1 s = JSON.parse_step pv2 n2 s.
Proof.
  intros HL H1 H2. unfold JSON.parse_step. cbv zeta.
  pose proof (skip_ws_length s) as Hs.
  destruct (JSON.head_is 110 _); [reflexivity |].
  destruct (JSON.head_is 116 _); [reflexivity |].
  destruct (JSON.head_is 102 _); [reflexivity |].
  destruct (JSON.head_is 34 _); [reflexivity |].
  destruct (JSON.head_is 91 _) eqn:Hb.
  { apply head_is_tl in Hb. destruct (JSON.head_is 93 _); [reflexivity |].
    apply elements_agree; lia. }
  destruct (JSON.head_is 123 _) eqn:Hc; [| reflexivity].
  apply head_is_tl in Hc. destruct (JSON.head_is 125 _); [reflexivity |].
  apply members_agree; lia.
Qed.

End Fuel.

Lemma parse_value_consumes (f : nat) : consumes (JSON.parse_value f).
Proof.
  induction f as [|f IH]; [intros s v rest H; discriminate |].
  cbn [JSON.parse_value]. apply parse_step_consumes. exact IH.
Qed.

(** More fuel than the length of the text changes nothing: the result of
    [JSON.parse], a value or the refusal of the text, is not one of fuel. *)
Lemma parse_value_fuel (f : nat) :
  forall s f',
    (List.length s < f)%nat -> (f <= f')%nat ->
    JSON.parse_value f' s = JSON.parse_value f s.
Proof.
  induction f as [|f IH]; intros s f' Hs Hf; [lia |].
  destruct f' as [|f']; [lia |]. cbn [JSON.parse_value].
  apply (parse_step_agree _ _ f).
  - intros s' Hs'. apply IH; lia.
  - apply parse_value_consumes.
  - lia.
  - lia.
  - lia.
Qed.

(** ** The request dispatcher *)

Lemma or_else_nil (t : jsstring) : or_else t [] = t.
Proof. destruct t; reflexivity. Qed.

(** [apiFetch] sends one request; on a response it follows the decoding
    policy, and a rejected [fetch] is thrown on. *)
Lemma apiFetch_resolved path init res net :
  exec (apiFetch path init) (Resolved res :: net)
  = ([Requested (request_of path init)],
     match decoded_body res with
     | Ok b => Returned (envelope res b)
     | Err e => Threw e
     end,
     net).
Proof.
  unfold apiFetch, fetch, decoded_body, declares_json, content_type,
    Response_json, Response_text, envelope.
  cbn [bind exec].
  destruct (Headers_get (headers res) (lit "content-type")) as [t|];
    [rewrite or_else_nil |];
    destruct (Str.includes _ (lit "application/json"));
    destruct (payload res) as [text | e]; cbn [lift bind exec];
    try reflexivity;
    destruct (JSON.parse text); reflexivity.
Qed.


(** C1. For a response that [apiFetch] handles, the returned envelope
    is determined by the decoding policy: with a content type that
    contains ["application/json"] its body is the value the text parses
    to, otherwise its body is the text itself; and [apiFetch] returns an
    envelope exactly when the body can be read and, if declared JSON,
    parsed. *)
Theorem apiFetch_body path init res net env :
  (exists t rest,
     exec (apiFetch path init) (Resolved res :: net) = (t, Returned env, rest))
  <->
  (exists text b,
     payload res = Ok text /\
     env = envelope res b /\
     if declares_json res then JSON.parse text = Some b else b = VStr text).
Proof.
  rewrite apiFetch_resolved. unfold decoded_body. split.
  - intros [t [rest H]].
    destruct (payload res) as [text | e]; [| discriminate].
    exists text.
    destruct (declares_json res).
    + destruct (JSON.parse text) as [v |]; [| discriminate].
      exists v. injection H as _ H _. subst env. auto.
    + exists (VStr text). injection H as _ H _. subst env. auto.
  - intros [text [b [Hp [-> Hb]]]]. rewrite Hp.
    exists [Requested (request_of path init)], net.
    destruct (declares_json res).
    + rewrite Hb. reflexivity.
    + rewrite Hb. reflexivity.
Qed.

Example apiFetch_json_example :
  exec (apiFetch (lit "/api/books") None)
    [Resolved (json_response 200 (json_text "{'items': [1, 2]}"))]
  = ([Requested (request_of (lit "/api/books") None)],
     Returned {| ok := true; api_status := 200;
                 body := VObj [(lit "items", VArr [VNum (Int 1); VNum (Int 2)])] |},
     []).
Proof. vm_compute. reflexivity. Qed.

Example apiFetch_text_example :
  exec (apiFetch (lit "/api/health") None)
    [Resolved (text_response 200 (json_text "{'items': [1, 2]}"))]
  = ([Requested (request_of (lit "/api/health") None)],
     Returned {| ok := true; api_status := 200;
                 body := VStr (json_text "{'items': [1, 2]}") |},
     []).
Proof. vm_compute. reflexivity. Qed.

(** C2. The [ok] of a returned envelope is true exactly when the status
    of the response is between 200 and 299, whatever its headers and its
    body. *)
Theorem ok_iff_status path init res net t env rest :
  exec (apiFetch path init) (Resolved res :: net) = (t, Returned env, rest) ->
  (ok env = true <-> 200 <= status res <= 299) /\
  (forall path' init' res' net' t' env' rest',
     exec (apiFetch path' init') (Resolved res' :: net')
     = (t', Returned env', rest') ->
     status res' = status res -> ok env' = ok env).
Proof.
  assert (Hok : forall p i r n t0 e0 r0,
             exec (apiFetch p i) (Resolved r :: n) = (t0, Returned e0, r0) ->
             ok e0 = Response_ok r).
  { intros p i r n t0 e0 r0 H. rewrite apiFetch_resolved in H.
    destruct (decoded_body r); [| discriminate].
    injection H as _ H _. subst e0. reflexivity. }
  intros H. split.
  - rewrite (Hok _ _ _ _ _ _ _ H). unfold Response_ok.
    rewrite andb_true_iff, !Z.leb_le. tauto.
  - intros path' init' res' net' t' env' rest' H' Hs.
    rewrite (Hok _ _ _ _ _ _ _ H), (Hok _ _ _ _ _ _ _ H').
    unfold Response_ok. rewrite Hs. reflexivity.
Qed.

Lemma ok_iff_status_witness :
  (true = true <-> 200 <= 200 <= 299) /\
  (false = true <-> 200 <= 404 <= 299).
Proof.
  split.
  - exact (proj1 (ok_iff_status (lit "/api/auth/login") None
                    (json_response 200 (json_text "{'success': false}")) []
                    [Requested (request_of (lit "/api/auth/login") None)]
                    {| ok := true; api_status := 200;
                       body := VObj [(lit "success", VBool false)] |}
                    [] eq_refl)).
  - exact (proj1 (ok_iff_status (lit "/api/auth/login") None
                    (json_response 404 (json_text "{'success': true}")) []
                    [Requested (request_of (lit "/api/auth/login") None)]
                    {| ok := false; api_status := 404;
                       body := VObj [(lit "success", VBool true)] |}
                    [] eq_refl)).
Defined.

(** C7. When the response declares a JSON content type and its text is
    not well-formed JSON, [apiFetch] returns no envelope: it throws the
    SyntaxError of the parse. *)
Theorem malformed_json_throws path init res text net :
  declares_json res = true ->
  payload res = Ok text ->
  JSON.parse text = None ->
  exec (apiFetch path init) (Resolved res :: net)
  = ([Requested (request_of path init)], Threw SyntaxError, net).
Proof.
  intros Hj Hp Hparse. rewrite apiFetch_resolved. unfold decoded_body.
  rewrite Hp, Hj, Hparse. reflexivity.
Qed.

Lemma malformed_json_throws_witness :
  exec (apiFetch (lit "/api/stats/summary") None)
    [Resolved (json_response 200 (json_text "{'total': 3,"))]
  = ([Requested (request_of (lit "/api/stats/summary") None)],
     Threw SyntaxError, []).
Proof.
  apply (malformed_json_throws (lit "/api/stats/summary") None
           (json_response 200 (json_text "{'total': 3,"))
           (json_text "{'total': 3,") []); reflexivity.
Defined.

(** ** Running [bind], [try] and [finally] *)

(** From here on the host is any host. *)
Section OnHost.

Context {host : Host}.

Lemma exec_bind {A B} (m : Async A) (f : A -> Async B) net :
  exec (bind m f) net
  = let '(t, o, rest) := exec m net in
    match o with
    | Returned a => let '(t', o', rest') := exec (f a) rest in (t ++ t', o', rest')
    | Threw e => (t, Threw e, rest)
    | Suspended k => (t, Suspended (fun ans => bind (k ans) f), rest)
    end.
Proof.
  revert net; induction m as [a|e|u k IH|w tg k IH|req k IH]; intros net;
    cbn [bind exec].
  - destruct (exec (f a) net) as [[t o] rest]. reflexivity.
  - reflexivity.
  - rewrite IH. destruct (exec k net) as [[t o] rest].
    destruct o; [destruct (exec (f a) rest) as [[t' o'] rest'] | |]; reflexivity.
  - rewrite IH. destruct (exec k net) as [[t o] rest].
    destruct o; [destruct (exec (f a) rest) as [[t' o'] rest'] | |]; reflexivity.
  - destruct net as [|ans net]; [reflexivity |].
    rewrite IH. destruct (exec (k ans) net) as [[t o] rest].
    destruct o; [destruct (exec (f a) rest) as [[t' o'] rest'] | |]; reflexivity.
Qed.

Lemma exec_try_catch {A} (m : Async A) (h : thrown -> Async A) net :
  exec (try_catch m h) net
  = let '(t, o, rest) := exec m net in
    match o with
    | Returned a => (t, Returned a, rest)
    | Threw e => let '(t', o', rest') := exec (h e) rest in (t ++ t', o', rest')
    | Suspended k => (t, Suspended (fun ans => try_catch (k ans) h), rest)
    end.
Proof.
  revert net; induction m as [a|e|u k IH|w tg k IH|req k IH]; intros net;
    cbn [try_catch exec].
  - reflexivity.
  - destruct (exec (h e) net) as [[t o] rest]. reflexivity.
  - rewrite IH. destruct (exec k net) as [[t o] rest].
    destruct o; [| destruct (exec (h e) rest) as [[t' o'] rest'] |]; reflexivity.
  - rewrite IH. destruct (exec k net) as [[t o] rest].
    destruct o; [| destruct (exec (h e) rest) as [[t' o'] rest'] |]; reflexivity.
  - destruct net as [|ans net]; [reflexivity |].
    rewrite IH. destruct (exec (k ans) net) as [[t o] rest].
    destruct o; [| destruct (exec (h e) rest) as [[t' o'] rest'] |]; reflexivity.
Qed.

Lemma exec_finally_set {A} (m : Async A) (u : update) net :
  exec (finally m (setState u)) net
  = let '(t, o, rest) := exec m net in
    match o with
    | Returned a => (t ++ [StateUpdate u], Returned a, rest)
    | Threw e => (t ++ [StateUpdate u], Threw e, rest)
    | Suspended k => (t, Suspended (fun ans => finally (k ans) (setState u)), rest)
    end.
Proof.
  revert net; induction m as [a|e|v k IH|w tg k IH|req k IH]; intros net;
    cbn [finally exec]; try reflexivity.
  - rewrite IH. destruct (exec k net) as [[t o] rest]. destruct o; reflexivity.
  - rewrite IH. destruct (exec k net) as [[t o] rest]. destruct o; reflexivity.
  - destruct net as [|ans net]; [reflexivity |].
    rewrite IH. destruct (exec (k ans) net) as [[t o] rest].
    destruct o; reflexivity.
Qed.

(** The two ways out of [run]. *)
Lemma run_returned title fn net t r rest :
  exec fn net = (t, Returned r, rest) ->
  exec (run title fn) net
  = (StateUpdate (SetBusy true) ::
       t ++ [StateUpdate (LogPrepend (logged title r));
             StateUpdate (SetBusy false)],
     Returned tt, rest).
Proof.
  intros H. unfold run. cbn [exec].
  rewrite exec_finally_set, exec_try_catch, exec_bind, H.
  unfold appendLog, logged. destruct (log_block title r) as [text | e];
    cbn; rewrite ?app_nil_r, <- ?app_assoc; reflexivity.
Qed.

Lemma run_threw title fn net t e rest :
  exec fn net = (t, Threw e, rest) ->
  exec (run title fn) net
  = (StateUpdate (SetBusy true) ::
       t ++ [StateUpdate (LogPrepend (error_log title e));
             StateUpdate (SetBusy false)],
     Returned tt, rest).
Proof.
  intros H. unfold run. cbn [exec].
  rewrite exec_finally_set, exec_try_catch, exec_bind, H.
  cbn. rewrite <- app_assoc. reflexivity.
Qed.

Lemma updates_app (t1 t2 : list effect) :
  updates (t1 ++ t2) = updates t1 ++ updates t2.
Proof. unfold updates. apply flat_map_app. Qed.

Lemma apply_keeps_log (u : update) (st : AppState) :
  is_log_update u = false -> log (apply u st) = log st.
Proof. destruct st, u; simpl; intros H; try reflexivity; discriminate. Qed.

Lemma apply_all_keeps_log (us : list update) (st : AppState) :
  List.filter is_log_update us = [] -> log (apply_all us st) = log st.
Proof.
  revert st; induction us as [|u us IH]; intros st H; [reflexivity |].
  simpl in H. destruct (is_log_update u) eqn:E; [discriminate |].
  unfold apply_all in *. simpl. rewrite IH by exact H.
  apply apply_keeps_log. exact E.
Qed.

Lemma apply_all_app (us vs : list update) (st : AppState) :
  apply_all (us ++ vs) st = apply_all vs (apply_all us st).
Proof. unfold apply_all. apply fold_left_app. Qed.

Lemma log_prepend (text : jsstring) (st : AppState) :
  log (apply (LogPrepend text) st) = text ++ log st.
Proof. destruct st; reflexivity. Qed.

(** [run] around any function that throws without writing to the log
    itself. *)
Lemma run_catches_log_free title fn net t e rest st :
  exec fn net = (t, Threw e, rest) ->
  List.filter is_log_update (updates t) = [] ->
  exec (run title fn) net
  = (StateUpdate (SetBusy true) ::
       t ++ [StateUpdate (LogPrepend (error_log title e));
             StateUpdate (SetBusy false)],
     Returned tt, rest) /\
  List.filter is_log_update (updates (fst (fst (exec (run title fn) net))))
  = [LogPrepend (error_log title e)] /\
  log (state_after (run title fn) net st) = error_log title e ++ log st /\
  Str.includes (error_log title e) (lit "ERROR") = true /\
  Str.includes (error_log title e) (error_text e) = true /\
  (forall name message, e = ErrorObject name message -> error_text e = message).
Proof.
  intros H Hlog.
  assert (Hrun := run_threw title fn net t e rest H).
  split; [exact Hrun |].
  unfold state_after. rewrite Hrun. cbn [fst].
  change (StateUpdate (SetBusy true) :: t ++ ?l)
    with ([StateUpdate (SetBusy true)] ++ t ++ l).
  rewrite !updates_app.
  split; [| split; [| split; [| split]]].
  - rewrite !filter_app, Hlog. reflexivity.
  - rewrite !apply_all_app.
    change (updates [StateUpdate (LogPrepend (error_log title e));
                     StateUpdate (SetBusy false)])
      with [LogPrepend (error_log title e); SetBusy false].
    change (apply_all [LogPrepend (error_log title e); SetBusy false] ?x)
      with (apply (SetBusy false) (apply (LogPrepend (error_log title e)) x)).
    rewrite apply_keeps_log by reflexivity.
    rewrite log_prepend.
    rewrite (apply_all_keeps_log (updates t)) by exact Hlog.
    rewrite (apply_all_keeps_log (updates [StateUpdate (SetBusy true)]))
      by reflexivity.
    reflexivity.
  - unfold error_log, error_block.
    change (lit " ERROR ===") with (lit " " ++ lit "ERROR" ++ lit " ===").
    rewrite <- !app_assoc.
    rewrite (app_assoc nl), (app_assoc (nl ++ _)), (app_assoc ((nl ++ _) ++ _)).
    apply includes_middle.
  - unfold error_log, error_block.
    rewrite (app_assoc nl), (app_assoc (nl ++ _)), (app_assoc ((nl ++ _) ++ _)),
      (app_assoc (((nl ++ _) ++ _) ++ _)).
    apply includes_middle.
  - intros name message ->. reflexivity.
Qed.

(** ** Every action awaits once and leaves the log and the flag alone *)

Lemma tame_le {A} P n (m : Async A) :
  tame P n m -> forall n', (n <= n')%nat -> tame P n' m.
Proof.
  induction 1 as [n a|n e|n u k Hu _ IH|n w tg k _ IH|n req k _ IH];
    intros n' Hle.
  - constructor.
  - constructor.
  - constructor; [exact Hu | apply IH; exact Hle].
  - constructor. apply IH; exact Hle.
  - destruct n' as [|n']; [lia |].
    constructor. intros ans. apply IH. lia.
Qed.

Lemma tame_bind {A B} P n j (m : Async A) (f : A -> Async B) :
  tame P n m -> (forall a, tame P j (f a)) -> tame P (n + j) (bind m f).
Proof.
  intros Hm Hf.
  induction Hm as [n a|n e|n u k Hu _ IH|n w tg k _ IH|n req k _ IH];
    cbn [bind].
  - apply tame_le with j; [apply Hf | lia].
  - constructor.
  - constructor; assumption.
  - constructor; assumption.
  - change (S n + j)%nat with (S (n + j)). constructor. exact IH.
Qed.

Lemma tame_lift {A} P (r : result A) : tame P 0 (lift r).
Proof. destruct r; constructor. Qed.

Lemma tame_fetch P req : tame P 1 (fetch req).
Proof. constructor. intros [res | e]; constructor. Qed.

Lemma tame_json P res : tame P 0 (Response_json res).
Proof.
  unfold Response_json, Response_text.
  apply (tame_bind P 0 0); [apply tame_lift |].
  intros text. destruct (JSON.parse text); constructor.
Qed.

Lemma tame_apiFetch P path init : tame P 1 (apiFetch path init).
Proof.
  unfold apiFetch.
  apply (tame_bind P 1 0); [apply tame_fetch |].
  intros res.
  apply (tame_bind P 0 0); [| intros b; constructor].
  destruct (Str.includes _ _); [apply tame_json |].
  apply (tame_bind P 0 0); [apply tame_lift | intros t; constructor].
Qed.

Lemma tame_listing (g : bool) (u : update) (r : ApiResult) :
  quiet u = true ->
  tame quiet 0 (bind (if g then setState u else Ret tt) (fun _ => Ret r)).
Proof.
  intros Hu. destruct g; cbn [bind setState]; repeat constructor. exact Hu.
Qed.

Lemma action_tame b st title fn :
  action b st = Some (title, fn) -> tame quiet 1 fn.
Proof.
  destruct b; cbn [action]; intros H; try discriminate;
    injection H as _ <-; try apply tame_apiFetch.
  - unfold loadBooks_fn.
    apply (tame_bind quiet 0 1); [apply tame_lift | intros eq].
    apply (tame_bind quiet 1 0); [apply tame_apiFetch | intros r].
    apply tame_listing. reflexivity.
  - unfold searchGet_fn.
    apply (tame_bind quiet 0 1); [apply tame_lift | intros eq].
    apply (tame_bind quiet 1 0); [apply tame_apiFetch | intros r].
    apply tame_listing. reflexivity.
  - unfold searchPost_fn.
    apply (tame_bind quiet 1 0); [apply tame_apiFetch | intros r].
    apply tame_listing. reflexivity.
Qed.

Lemma tame_updates {A} P n (m : Async A) :
  tame P n m ->
  forall net t o rest,
    exec m net = (t, o, rest) -> Forall (fun u => P u = true) (updates t).
Proof.
  induction 1 as [n a|n e|n u k Hu _ IH|n w tg k _ IH|n req k _ IH];
    intros net t o rest E; cbn [exec] in E.
  - injection E as <- _ _. constructor.
  - injection E as <- _ _. constructor.
  - destruct (exec k net) as [[t' o'] rest'] eqn:Ek.
    injection E as <- _ _. simpl. constructor; [exact Hu |].
    apply (IH net t' o' rest' Ek).
  - destruct (exec k net) as [[t' o'] rest'] eqn:Ek.
    injection E as <- _ _. simpl. apply (IH net t' o' rest' Ek).
  - destruct net as [|ans net'].
    + injection E as <- _ _. constructor.
    + destruct (exec (k ans) net') as [[t' o'] rest'] eqn:Ek.
      injection E as <- _ _. simpl. apply (IH ans net' t' o' rest' Ek).
Qed.

Lemma quiet_no_log (us : list update) :
  Forall (fun u => quiet u = true) us -> List.filter is_log_update us = [].
Proof.
  induction 1 as [|u us Hu _ IH]; [reflexivity |].
  simpl. rewrite IH. destruct u; try reflexivity; discriminate.
Qed.

(** C6. When the function of an action of the console throws, [run]
    prepends exactly one block to the log, the block holds the marker
    ERROR and the message of the error, what the log held before follows
    it unchanged, and [run] itself returns: nothing is thrown on. *)
Theorem run_catches b st0 title fn net t e rest st :
  action b st0 = Some (title, fn) ->
  exec fn net = (t, Threw e, rest) ->
  exec (run title fn) net
  = (StateUpdate (SetBusy true) ::
       t ++ [StateUpdate (LogPrepend (error_log title e));
             StateUpdate (SetBusy false)],
     Returned tt, rest) /\
  List.filter is_log_update (updates (fst (fst (exec (run title fn) net))))
  = [LogPrepend (error_log title e)] /\
  log (state_after (run title fn) net st) = error_log title e ++ log st /\
  Str.includes (error_log title e) (lit "ERROR") = true /\
  Str.includes (error_log title e) (error_text e) = true /\
  (forall name message, e = ErrorObject name message -> error_text e = message).
Proof.
  intros Ha H. apply run_catches_log_free; [exact H |].
  apply quiet_no_log.
  apply (tame_updates quiet 1 fn (action_tame b st0 title fn Ha) net t _ rest H).
Qed.

(** ** What is shown of a body *)

Lemma elements_array pv n acc s v rest :
  JSON.elements pv n acc s = Some (v, rest) -> exists l, v = VArr l.
Proof.
  revert acc s; induction n as [|n IH]; intros acc s; cbn [JSON.elements];
    [discriminate |].
  destruct (pv s) as [[x r] |]; [| discriminate]. cbv zeta.
  destruct (JSON.head_is 44 _); [apply IH |].
  destruct (JSON.head_is 93 _); [| discriminate].
  intros H. injection H as <- _. eexists. reflexivity.
Qed.

Lemma members_object pv n acc s v rest :
  JSON.members pv n acc s = Some (v, rest) -> exists l, v = VObj l.
Proof.
  revert acc s; induction n as [|n IH]; intros acc s; cbn [JSON.members];
    [discriminate |]. cbv zeta.
  destruct (JSON.head_is 34 _); [| discriminate].
  destruct (JSON.parse_chars _) as [[k s2] |]; [| discriminate].
  destruct (JSON.head_is 58 _); [| discriminate].
  destruct (pv _) as [[x r] |]; [| discriminate].
  destruct (JSON.head_is 44 _); [apply IH |].
  destruct (JSON.head_is 125 _); [| discriminate].
  intros H. injection H as <- _. eexists. reflexivity.
Qed.

Lemma expect_value word v s v' rest :
  JSON.expect word v s = Some (v', rest) -> v' = v.
Proof.
  unfold JSON.expect. destruct (Str.starts_with word s); [| discriminate].
  intros H. injection H as <- _. reflexivity.
Qed.

Lemma parse_step_defined pv n s v rest :
  JSON.parse_step pv n s = Some (v, rest) -> v <> VUndefined.
Proof.
  unfold JSON.parse_step. cbv zeta.
  destruct (JSON.head_is 110 _);
    [intros H; apply expect_value in H; subst; discriminate |].
  destruct (JSON.head_is 116 _);
    [intros H; apply expect_value in H; subst; discriminate |].
  destruct (JSON.head_is 102 _);
    [intros H; apply expect_value in H; subst; discriminate |].
  destruct (JSON.head_is 34 _).
  { destruct (JSON.parse_chars _) as [[cs r] |]; [| discriminate].
    intros H. injection H as <- _. discriminate. }
  destruct (JSON.head_is 91 _).
  { destruct (JSON.head_is 93 _).
    - intros H. injection H as <- _. discriminate.
    - intros H. apply elements_array in H. destruct H as [l ->]. discriminate. }
  destruct (JSON.head_is 123 _).
  { destruct (JSON.head_is 125 _).
    - intros H. injection H as <- _. discriminate.
    - intros H. apply members_object in H. destruct H as [l ->]. discriminate. }
  destruct (JSON.parse_number _) as [[x r] |]; [| discriminate].
  intros H. injection H as <- _. discriminate.
Qed.

Lemma parse_defined text v : JSON.parse text = Some v -> v <> VUndefined.
Proof.
  unfold JSON.parse. cbn [JSON.parse_value].
  destruct (JSON.parse_step _ _ text) as [[x rest] |] eqn:E; [| discriminate].
  destruct (JSON.skip_ws rest); [| discriminate].
  intros H. injection H as <-. apply (parse_step_defined _ _ _ _ _ E).
Qed.


Lemma text_of_defined v space :
  v <> VUndefined -> exists t, JSON.text_of v space = Some t.
Proof.
  unfold JSON.text_of.
  destruct v as [| |[|]|n|t|xs|props]; intros H; try congruence; cbn;
    eexists; reflexivity.
Qed.


Lemma stringify_fits v space :
  (depth v <= stringify_depth)%nat ->
  JSON.stringify v space = Ok (JSON.text_of v space).
Proof.
  intros H. unfold JSON.stringify. apply Nat.leb_le in H. rewrite H.
  reflexivity.
Qed.











(** ** The listing actions *)






(** A paged body under an error status fails the guard as well: the list
    stays empty and the body is logged. *)
Example error_status_keeps_books :
  let res := json_response 500
               (json_text "{'total':1,'page':1,'pageSize':20,'items':[7]}") in
  let st' := state_after (onClick LoadBooks initial) [Resolved res] initial in
  books st' = [] /\
  Str.includes (log st') (lit "Status: 500") = true /\
  Str.includes (log st') (lit "7") = true /\
  busy st' = false.
Proof. vm_compute. repeat split; reflexivity. Qed.

(** The same response fills the list of a Search, whose guard it passes. *)
Example search_fills_items :
  searchItems (state_after (onClick SearchGet initial) [Resolved items_only]
                 initial)
  = [VNum (Int 1); VNum (Int 2)].
Proof. vm_compute. reflexivity. Qed.

(** ** A body nested too deep *)

Lemma parse_value_S f s :
  JSON.parse_value (S f) s = JSON.parse_step (JSON.parse_value f) f s.
Proof. reflexivity. Qed.











(** ** The busy gate *)

Lemma quiet_not_busy (u : update) : quiet u = true -> not_busy u = true.
Proof. destruct u; simpl; intros H; try reflexivity; discriminate. Qed.

Lemma run_tail_closing title fn n :
  tame quiet n fn -> closing n (run_tail title fn).
Proof.
  induction 1 as [n a|n e|n u k Hu _ IH|n w tg k _ IH|n req k _ IH];
    unfold run_tail in *; cbn [bind try_catch finally setState].
  - unfold appendLog. destruct (log_block title a);
      cbn [lift bind try_catch finally setState];
      (apply closing_set; [reflexivity | apply closing_done]).
  - apply closing_set; [reflexivity | apply closing_done].
  - apply closing_set; [apply quiet_not_busy; exact Hu | exact IH].
  - apply closing_open. exact IH.
  - apply closing_await. exact IH.
Qed.

Lemma apply_keeps_busy (u : update) (st : AppState) :
  not_busy u = true -> busy (apply u st) = busy st.
Proof. destruct st, u; simpl; intros H; try reflexivity; discriminate. Qed.

Lemma busy_reset (st : AppState) : busy (apply (SetBusy false) st) = false.
Proof. destruct st; reflexivity. Qed.

Lemma busy_set (st : AppState) : busy (apply (SetBusy true) st) = true.
Proof. destruct st; reflexivity. Qed.

(** Driving a closing computation: either it ends, the flag down, or it
    stops at its await, the flag as it was. *)
Lemma drive_closing n m :
  closing n m ->
  forall c,
    unhandled (drive m c) = unhandled c /\
    ((busy (app (drive m c)) = false /\ inflight (drive m c) = inflight c) \/
     (exists n' k,
        n = S n' /\ inflight (drive m c) = inflight c ++ [k] /\
        (forall ans, closing n' (k ans)) /\
        busy (app (drive m c)) = busy (app c))).
Proof.
  induction 1 as [n|n u k Hu _ IH|n w tg k _ IH|n req k Hk _]; intros c;
    cbn [drive].
  - cbn [app inflight unhandled]. split; [reflexivity |].
    left. split; [apply busy_reset | reflexivity].
  - destruct (IH {| app := apply u (app c); inflight := inflight c;
                    windows := windows c; unhandled := unhandled c |})
      as [Hun [[Hb Hi] | [n' [k' [-> [Hi [Hk Hb]]]]]]]; cbn [app inflight unhandled] in *.
    + split; [exact Hun | left; split; assumption].
    + split; [exact Hun |]. right. exists n', k'.
      rewrite Hb, apply_keeps_busy by exact Hu. auto.
  - destruct (IH {| app := app c; inflight := inflight c;
                    windows := windows c ++ [(w, tg)];
                    unhandled := unhandled c |})
      as [Hun [[Hb Hi] | [n' [k' [-> [Hi [Hk Hb]]]]]]]; cbn [app inflight unhandled] in *.
    + split; [exact Hun | left; split; assumption].
    + split; [exact Hun |]. right. exists n', k'. auto.
  - cbn [app inflight unhandled]. split; [reflexivity |].
    right. exists n, k. auto.
Qed.

Lemma disabled_when_busy b st : busy st = true -> disabled b st = true.
Proof. destruct b; simpl; intros ->; reflexivity. Qed.

Lemma onClick_cases b st :
  onClick b st = WindowOpen (lit "/swagger") (lit "_blank") (Ret tt) \/
  onClick b st = setState (SetLog []) \/
  exists title fn,
    action b st = Some (title, fn) /\
    onClick b st = Set_ (SetBusy true) (run_tail title fn).
Proof.
  destruct b; auto; right; right; cbn [onClick action];
    eexists; eexists; split; reflexivity.
Qed.

Lemma gate_start : gate start.
Proof. split; [reflexivity | left; split; reflexivity]. Qed.

Lemma gate_click b c :
  gate c -> disabled b (app c) = false ->
  gate (drive (onClick b (app c)) c).
Proof.
  intros [Hun [[Hb Hi] | [Hb _]]] Hd;
    [| rewrite (disabled_when_busy b _ Hb) in Hd; discriminate].
  destruct (onClick_cases b (app c)) as [-> | [-> | [title [fn [Ha ->]]]]].
  - unfold gate. cbn [drive app inflight unhandled].
    split; [exact Hun | left; split; assumption].
  - unfold gate. cbn [drive setState app inflight unhandled].
    split; [exact Hun |]. left.
    rewrite apply_keeps_busy by reflexivity. split; assumption.
  - unfold gate. cbn [drive].
    destruct (drive_closing 1 (run_tail title fn)
                (run_tail_closing title fn 1 (action_tame b _ title fn Ha))
                {| app := apply (SetBusy true) (app c); inflight := inflight c;
                   windows := windows c; unhandled := unhandled c |})
      as [Hun' [[Hb' Hi'] | [n' [k [Hn [Hi' [Hk Hb']]]]]]];
      cbn [app inflight unhandled] in *.
    + split; [congruence |]. left. split; congruence.
    + injection Hn as <-. split; [congruence |]. right.
      rewrite Hb', busy_set. split; [reflexivity |].
      exists k. rewrite Hi', Hi. auto.
Qed.

Lemma gate_input i c : gate c -> gate (drive (onChange i) c).
Proof.
  intros [Hun H].
  assert (E : exists u, onChange i = Set_ u (Ret tt) /\ not_busy u = true)
    by (destruct i; eexists; split; reflexivity).
  destruct E as [u [-> Hu]]. unfold gate. cbn [drive app inflight unhandled].
  rewrite (apply_keeps_busy u (app c) Hu).
  split; assumption.
Qed.

Lemma gate_settle c before k after ans :
  gate c -> inflight c = before ++ k :: after ->
  let c' := drive (k ans)
              {| app := app c; inflight := before ++ after;
                 windows := windows c; unhandled := unhandled c |} in
  gate c' /\ busy (app c') = false /\ inflight c' = [].
Proof.
  intros [Hun [[_ Hi] | [_ [k0 [Hi Hk]]]]] E; rewrite Hi in E.
  - destruct before; discriminate.
  - destruct before as [|x before].
    + injection E as <- <-. cbn zeta.
      destruct (drive_closing 0 (k0 ans) (Hk ans)
                  {| app := app c; inflight := [] ++ [];
                     windows := windows c; unhandled := unhandled c |})
        as [Hun' [[Hb' Hi'] | [n' [k' [Hn _]]]]]; [| discriminate].
      cbn [app inflight unhandled app] in *.
      repeat split; try assumption; [congruence |].
      left. split; assumption.
    + injection E as _ E. destruct before; discriminate.
Qed.

Lemma reachable_gate c : reachable c -> gate c.
Proof.
  induction 1 as [|c e c' _ IH Hstep]; [apply gate_start |].
  destruct Hstep as [b c Hd | i c | c before k after ans E].
  - apply gate_click; assumption.
  - apply gate_input; assumption.
  - apply (gate_settle c before k after ans IH E).
Qed.

(** C9. In every state the page can reach: at most one call is in
    flight and the busy flag is up exactly while one is; an action sets
    the flag first thing, and the flag is down again as soon as its call
    settles, whatever the answer, a response or a failure; while the flag
    is up every button is disabled, so no click starts a second action;
    and no error gets past a handler. *)
Theorem busy_gate c :
  reachable c ->
  unhandled c = [] /\
  (inflight c = [] \/ exists k, inflight c = [k]) /\
  (busy (app c) = true <-> inflight c <> []) /\
  (busy (app c) = true -> forall b, disabled b (app c) = true) /\
  (busy (app c) = true -> forall b c', ~ step c (Click b) c') /\
  (forall b c' title fn,
     step c (Click b) c' -> action b (app c) = Some (title, fn) ->
     (exists tail, onClick b (app c) = Set_ (SetBusy true) tail) /\
     ((busy (app c') = true /\ exists k, inflight c' = [k]) \/
      (busy (app c') = false /\ inflight c' = []))) /\
  (forall ans c',
     step c (Settle ans) c' -> busy (app c') = false /\ inflight c' = []).
Proof.
  intros Hr. assert (Hg := reachable_gate c Hr).
  destruct Hg as [Hun Hg].
  split; [exact Hun |].
  split; [destruct Hg as [[_ Hi] | [_ [k [Hi _]]]]; [left | right; exists k]; exact Hi |].
  split.
  { destruct Hg as [[Hb Hi] | [Hb [k [Hi _]]]]; rewrite Hb, Hi; split;
      congruence. }
  split; [intros Hb b; apply disabled_when_busy; exact Hb |].
  split.
  { intros Hb b c' Hstep. inversion Hstep as [b' c0 Hd | |]; subst.
    rewrite (disabled_when_busy b _ Hb) in Hd. discriminate. }
  split.
  - intros b c' title fn Hstep Ha.
    inversion Hstep as [b' c0 Hd | |]; subst.
    split.
    + destruct (onClick_cases b (app c)) as [E | [E | [title' [fn' [_ E]]]]].
      * destruct b; try discriminate.
      * destruct b; try discriminate.
      * exists (run_tail title' fn'). exact E.
    + destruct (gate_click b c (conj Hun Hg) Hd) as [_ [[Hb Hi] | [Hb [k [Hi _]]]]].
      * right. split; assumption.
      * left. split; [exact Hb | exists k; exact Hi].
  - intros ans c' Hstep.
    inversion Hstep as [| | c0 before k after ans' E]; subst.
    apply (gate_settle c before k after ans (conj Hun Hg) E).
Qed.


(** * Further properties of the console *)

(** ** What [run] does in each case *)

Lemma run_suspended title fn net t k rest :
  exec fn net = (t, Suspended k, rest) ->
  exec (run title fn) net
  = (StateUpdate (SetBusy true) :: t,
     Suspended (fun ans => run_tail title (k ans)), rest).
Proof.
  intros H. unfold run. cbn [exec].
  rewrite exec_finally_set, exec_try_catch, exec_bind, H. reflexivity.
Qed.

Lemma requests_app (t1 t2 : list effect) :
  requests (t1 ++ t2) = requests t1 ++ requests t2.
Proof. unfold requests. apply flat_map_app. Qed.

(** [run] sends what its function sends, and nothing more. *)
Lemma run_requests title fn net :
  requests (fst (fst (exec (run title fn) net)))
  = requests (fst (fst (exec fn net))).
Proof.
  destruct (exec fn net) as [[t o] rest] eqn:E.
  destruct o as [r | e | k].
  - rewrite (run_returned _ _ _ _ _ _ E). cbn [fst].
    change (StateUpdate (SetBusy true) :: t ++ ?l)
      with ([StateUpdate (SetBusy true)] ++ t ++ l).
    rewrite !requests_app. cbn. rewrite app_nil_r. reflexivity.
  - rewrite (run_threw _ _ _ _ _ _ E). cbn [fst].
    change (StateUpdate (SetBusy true) :: t ++ ?l)
      with ([StateUpdate (SetBusy true)] ++ t ++ l).
    rewrite !requests_app. cbn. rewrite app_nil_r. reflexivity.
  - rewrite (run_suspended _ _ _ _ _ _ E). reflexivity.
Qed.



(** ** The requests of the console *)

Lemma polite_bind {A B} R (m : Async A) (f : A -> Async B) :
  polite R m -> (forall a, polite R (f a)) -> polite R (bind m f).
Proof.
  intros Hm Hf.
  induction Hm as [a|e|u k _ IH|w tg k _ IH|req k Hr _ IH]; cbn [bind].
  - apply Hf.
  - constructor.
  - constructor. exact IH.
  - constructor. exact IH.
  - constructor; [exact Hr | exact IH].
Qed.

Lemma polite_lift {A} R (r : result A) : polite R (lift r).
Proof. destruct r; constructor. Qed.

Lemma polite_apiFetch R path init :
  R (request_of path init) -> polite R (apiFetch path init).
Proof.
  intros Hr. unfold apiFetch. apply polite_bind.
  - constructor; [exact Hr |]. intros [res | e]; constructor.
  - intros res. apply polite_bind; [| intros b; constructor].
    destruct (Str.includes _ _).
    + unfold Response_json, Response_text.
      apply polite_bind; [apply polite_lift |].
      intros text. destruct (JSON.parse text); constructor.
    + apply polite_bind; [apply polite_lift | intros t; constructor].
Qed.

Lemma polite_listing R (g : bool) (u : update) (r : ApiResult) :
  polite R (bind (if g then setState u else Ret tt) (fun _ => Ret r)).
Proof. destruct g; cbn [bind setState]; repeat constructor. Qed.

Lemma polite_requests {A} R (m : Async A) :
  polite R m ->
  forall net t o rest, exec m net = (t, o, rest) -> Forall R (requests t).
Proof.
  induction 1 as [a|e|u k _ IH|w tg k _ IH|req k Hr _ IH];
    intros net t o rest E; cbn [exec] in E.
  - injection E as <- _ _. constructor.
  - injection E as <- _ _. constructor.
  - destruct (exec k net) as [[t' o'] rest'] eqn:Ek.
    injection E as <- _ _. apply (IH net t' o' rest' Ek).
  - destruct (exec k net) as [[t' o'] rest'] eqn:Ek.
    injection E as <- _ _. apply (IH net t' o' rest' Ek).
  - destruct net as [|ans net'].
    + injection E as <- _ _. cbn. constructor; [exact Hr | constructor].
    + destruct (exec (k ans) net') as [[t' o'] rest'] eqn:Ek.
      injection E as <- _ _.
      change (requests (Requested req :: t')) with (req :: requests t').
      constructor; [exact Hr |].
      apply (IH ans net' t' o' rest' Ek).
Qed.

Lemma tame_requests {A} P n (m : Async A) :
  tame P n m ->
  forall net t o rest,
    exec m net = (t, o, rest) -> (List.length (requests t) <= n)%nat.
Proof.
  induction 1 as [n a|n e|n u k Hu _ IH|n w tg k _ IH|n req k _ IH];
    intros net t o rest E; cbn [exec] in E.
  - injection E as <- _ _. cbn. lia.
  - injection E as <- _ _. cbn. lia.
  - destruct (exec k net) as [[t' o'] rest'] eqn:Ek.
    injection E as <- _ _. apply (IH net t' o' rest' Ek).
  - destruct (exec k net) as [[t' o'] rest'] eqn:Ek.
    injection E as <- _ _. apply (IH net t' o' rest' Ek).
  - destruct net as [|ans net'].
    + injection E as <- _ _. cbn. lia.
    + destruct (exec (k ans) net') as [[t' o'] rest'] eqn:Ek.
      injection E as <- _ _.
      change (requests (Requested req :: t')) with (req :: requests t').
      specialize (IH ans net' t' o' rest' Ek). cbn [List.length]. lia.
Qed.

Lemma depth_numbers (l : list number) :
  list_max (List.map depth (List.map VNum l)) = 0%nat.
Proof. induction l as [|n l IH]; [reflexivity | exact IH]. Qed.

(** The three objects the page writes into its requests are two levels
    deep at most: on every host [JSON.stringify] gives their text, the
    one [json_body] takes. *)
Lemma request_bodies_fit st :
  let login := VObj [(lit "username", VStr (username st));
                     (lit "password", VStr (password st))] in
  let ids := VObj [(lit "ids",
                    VArr (List.map VNum (selectedIdList (selectedIds st))))] in
  let search := VObj [(lit "q", VStr (searchQ st));
                      (lit "mode", VStr (lit "auto"))] in
  JSON.stringify login 0 = Ok (JSON.text_of login 0) /\
  JSON.stringify ids 0 = Ok (JSON.text_of ids 0) /\
  JSON.stringify search 0 = Ok (JSON.text_of search 0).
Proof.
  cbv zeta. repeat split; apply stringify_fits; unfold stringify_depth;
    cbn [depth List.map snd list_max fold_right]; rewrite ?depth_numbers; lia.
Qed.

Lemma json_body_string (v : value) :
  JSON.text_of v 0 <> None ->
  exists t, json_body v = Some (BodyString t).
Proof.
  unfold json_body. destruct (JSON.text_of v 0) as [t |]; [| congruence].
  intros _. exists t. reflexivity.
Qed.

Lemma action_polite b st title fn :
  action b st = Some (title, fn) -> polite console_request fn.
Proof.
  destruct b; cbn [action]; intros H; try discriminate; injection H as _ <-.
  - apply polite_apiFetch. repeat split.
  - apply polite_apiFetch. repeat split.
  - apply polite_apiFetch. repeat split.
  - apply polite_apiFetch. repeat split.
  - unfold loadBooks_fn.
    apply polite_bind; [apply polite_lift | intros eq].
    apply polite_bind; [| intros r; apply polite_listing].
    apply polite_apiFetch. repeat split.
  - apply polite_apiFetch. repeat split.
  - apply polite_apiFetch. repeat split.
  - apply polite_apiFetch. repeat split.
  - unfold searchGet_fn.
    apply polite_bind; [apply polite_lift | intros eq].
    apply polite_bind; [| intros r; apply polite_listing].
    apply polite_apiFetch. repeat split.
  - unfold searchPost_fn.
    apply polite_bind; [| intros r; apply polite_listing].
    apply polite_apiFetch. repeat split.
  - apply polite_apiFetch. repeat split.
Qed.

Lemma onClick_run b st title fn :
  action b st = Some (title, fn) -> onClick b st = run title fn.
Proof.
  destruct b; cbn [action]; intros H; try discriminate;
    injection H as <- <-; reflexivity.
Qed.

(** X2. Whatever button is clicked, in whatever state, its handler sends
    at most one request, and a request it sends goes under [/api/] with
    the credentials included, JSON text posted under the JSON content
    type, form data posted without a content type, and no header when
    there is no body. *)
Theorem one_console_request b st net :
  (List.length (requests (fst (fst (exec (onClick b st) net)))) <= 1)%nat /\
  Forall console_request (requests (fst (fst (exec (onClick b st) net)))).
Proof.
  destruct (action b st) as [[title fn] |] eqn:Ha.
  - rewrite (onClick_run b st title fn Ha), run_requests.
    destruct (exec fn net) as [[t o] rest] eqn:E. cbn [fst]. split.
    + apply (tame_requests quiet 1 fn (action_tame b st title fn Ha) net t o rest E).
    + apply (polite_requests console_request fn
               (action_polite b st title fn Ha) net t o rest E).
  - destruct b; try discriminate; cbn; split; (lia || constructor).
Qed.

(** ** Encoding the query *)

Lemma upper_hex_unreserved (d : Z) :
  0 <= d < 16 -> URI.unreserved (URI.upper_hex d) = true.
Proof.
  intros H.
  assert (E : d = 0 \/ d = 1 \/ d = 2 \/ d = 3 \/ d = 4 \/ d = 5 \/ d = 6 \/
              d = 7 \/ d = 8 \/ d = 9 \/ d = 10 \/ d = 11 \/ d = 12 \/
              d = 13 \/ d = 14 \/ d = 15) by lia.
  repeat (destruct E as [E | E]); subst; reflexivity.
Qed.

Lemma percent_safe (b : Z) : 0 <= b < 256 -> Forall uri_safe (URI.percent b).
Proof.
  intros H. unfold URI.percent.
  assert (0 <= b / 16 < 16).
  { split; [apply Z.div_pos; lia | apply Z.div_lt_upper_bound; lia]. }
  pose proof (Z.mod_pos_bound b 16 ltac:(lia)).
  apply Forall_cons; [right; reflexivity |].
  apply Forall_cons; [left; apply upper_hex_unreserved; assumption |].
  apply Forall_cons; [left; apply upper_hex_unreserved; assumption |].
  apply Forall_nil.
Qed.

Lemma escape_code_point_safe (cp : Z) :
  0 <= cp < 1114112 -> Forall uri_safe (URI.escape_code_point cp).
Proof.
  intros H. unfold URI.escape_code_point.
  pose proof (Z.mod_pos_bound cp 64 ltac:(lia)).
  pose proof (Z.mod_pos_bound (cp / 64) 64 ltac:(lia)).
  pose proof (Z.mod_pos_bound (cp / 4096) 64 ltac:(lia)).
  assert (0 <= cp / 64) by (apply Z.div_pos; lia).
  assert (0 <= cp / 4096) by (apply Z.div_pos; lia).
  assert (0 <= cp / 262144) by (apply Z.div_pos; lia).
  destruct (Z.ltb_spec cp 128); [apply percent_safe; lia |].
  destruct (Z.ltb_spec cp 2048).
  { assert (cp / 64 < 32) by (apply Z.div_lt_upper_bound; lia).
    apply Forall_app; split; apply percent_safe; lia. }
  destruct (Z.ltb_spec cp 65536).
  { assert (cp / 4096 < 16) by (apply Z.div_lt_upper_bound; lia).
    repeat (apply Forall_app; split); apply percent_safe; lia. }
  assert (cp / 262144 < 5) by (apply Z.div_lt_upper_bound; lia).
  repeat (apply Forall_app; split); apply percent_safe; lia.
Qed.

Lemma surrogate_bounds (c : N) :
  (JSON.is_high_surrogate c = true -> 55296 <= Z.of_N c <= 56319) /\
  (JSON.is_low_surrogate c = true -> 56320 <= Z.of_N c <= 57343).
Proof.
  unfold JSON.is_high_surrogate, JSON.is_low_surrogate.
  split; intros H; apply andb_true_iff in H; destruct H as [H1 H2];
    apply Z.leb_le in H1, H2; lia.
Qed.

(** What [encodeURIComponent] does, text by text: it fails on a surrogate
    code unit only, with the URIError; and what it gives is made of
    characters that need no escape and of percent signs. *)
Lemma encode_upto (n : nat) :
  forall s,
    (List.length s <= n)%nat ->
    match URI.encodeURIComponent s with
    | Ok t => Forall code_unit s -> Forall uri_safe t
    | Err e => e = URI.URIError /\ exists c, In c s /\ is_surrogate c = true
    end.
Proof.
  induction n as [|n IH]; intros s Hn.
  - destruct s; [cbn; constructor | simpl in Hn; lia].
  - destruct s as [|c s']; [cbn; constructor |]. simpl in Hn.
    cbn [URI.encodeURIComponent].
    destruct (URI.unreserved c) eqn:Hu.
    { specialize (IH s' ltac:(lia)).
      destruct (URI.encodeURIComponent s') as [t | e].
      - intros Hs. inversion Hs; subst.
        constructor; [left; exact Hu | apply IH; assumption].
      - destruct IH as [-> [x [Hx Hsx]]].
        split; [reflexivity | exists x; split; [right; exact Hx | exact Hsx]]. }
    destruct (JSON.is_low_surrogate c) eqn:Hl.
    { split; [reflexivity |]. exists c. split; [left; reflexivity |].
      unfold is_surrogate. rewrite Hl. apply orb_true_r. }
    destruct (JSON.is_high_surrogate c) eqn:Hh.
    + destruct s' as [|l s''].
      { split; [reflexivity |]. exists c. split; [left; reflexivity |].
        unfold is_surrogate. rewrite Hh. reflexivity. }
      destruct (JSON.is_low_surrogate l) eqn:Hll.
      * simpl in Hn. specialize (IH s'' ltac:(lia)).
        destruct (URI.encodeURIComponent s'') as [t | e].
        -- intros Hs. inversion Hs as [|? ? _ Hs']; subst.
           inversion Hs' as [|? ? _ Hs'']; subst.
           apply Forall_app. split; [| apply IH; assumption].
           apply escape_code_point_safe.
           apply (proj1 (surrogate_bounds c)) in Hh.
           apply (proj2 (surrogate_bounds l)) in Hll. lia.
        -- destruct IH as [-> [x [Hx Hsx]]].
           split; [reflexivity |].
           exists x. split; [right; right; exact Hx | exact Hsx].
      * split; [reflexivity |]. exists c. split; [left; reflexivity |].
        unfold is_surrogate. rewrite Hh. reflexivity.
    + specialize (IH s' ltac:(lia)).
      destruct (URI.encodeURIComponent s') as [t | e].
      * intros Hs. inversion Hs as [|? ? Hc Hs']; subst.
        apply Forall_app. split; [| apply IH; assumption].
        apply escape_code_point_safe. unfold code_unit in Hc. lia.
      * destruct IH as [-> [x [Hx Hsx]]].
        split; [reflexivity | exists x; split; [right; exact Hx | exact Hsx]].
Qed.

Lemma encode_error s e :
  URI.encodeURIComponent s = Err e ->
  e = URI.URIError /\ exists c, In c s /\ is_surrogate c = true.
Proof.
  intros H. pose proof (encode_upto (List.length s) s (le_n _)) as P.
  rewrite H in P. exact P.
Qed.

Lemma encode_safe s t :
  Forall code_unit s -> URI.encodeURIComponent s = Ok t -> Forall uri_safe t.
Proof.
  intros Hs H. pose proof (encode_upto (List.length s) s (le_n _)) as P.
  rewrite H in P. exact (P Hs).
Qed.

(** X3. When the text of the query cannot be encoded, which takes a
    surrogate code unit in it, Load Books and Search (GET) send nothing:
    [run] logs the URIError under the title of the action and resets the
    busy flag, in the click itself. *)
Theorem unencodable_query b st title fn e net :
  action b st = Some (title, fn) ->
  (b = LoadBooks /\ URI.encodeURIComponent (q st) = Err e) \/
  (b = SearchGet /\ URI.encodeURIComponent (searchQ st) = Err e) ->
  e = URI.URIError /\
  (exists c, is_surrogate c = true /\
             (In c (q st) \/ In c (searchQ st))) /\
  exec (onClick b st) net
  = ([StateUpdate (SetBusy true);
      StateUpdate (LogPrepend (error_log title URI.URIError));
      StateUpdate (SetBusy false)],
     Returned tt, net).
Proof.
  intros Ha H.
  rewrite (onClick_run b st title fn Ha).
  destruct H as [[-> E] | [-> E]]; cbn [action] in Ha; injection Ha as <- <-;
    destruct (encode_error _ _ E) as [-> [c [Hc Hs]]];
    (split; [reflexivity |]);
    (split; [exists c; split; [exact Hs | auto] |]).
  - apply (run_threw _ _ net [] URI.URIError net).
    unfold loadBooks_fn. rewrite E. reflexivity.
  - apply (run_threw _ _ net [] URI.URIError net).
    unfold searchGet_fn. rewrite E. reflexivity.
Qed.

(** X4. The query typed by the user cannot break the URL of Load Books
    or of Search (GET): the request goes to the fixed path followed by the
    encoded query, in which every character is one that needs no escape
    or the percent sign of an escape, so no [&], [=], [#], [?] or blank of
    the query reaches the URL as such. *)
Theorem query_is_escaped st net :
  Forall code_unit (q st) -> Forall code_unit (searchQ st) ->
  (forall req,
     In req (requests (fst (fst (exec (loadBooks_fn st) net)))) ->
     exists eq,
       URI.encodeURIComponent (q st) = Ok eq /\ Forall uri_safe eq /\
       url req = lit "/api/books?Q=" ++ eq ++ lit "&Page=" ++
                 Num.toString (page st) ++ lit "&PageSize=" ++
                 Num.toString (pageSize st)) /\
  (forall req,
     In req (requests (fst (fst (exec (searchGet_fn st) net)))) ->
     exists eq,
       URI.encodeURIComponent (searchQ st) = Ok eq /\ Forall uri_safe eq /\
       url req = lit "/api/search?q=" ++ eq).
Proof.
  intros Hq Hs. split; intros req Hin.
  - unfold loadBooks_fn in Hin.
    destruct (URI.encodeURIComponent (q st)) as [eq | e] eqn:E;
      cbn [lift bind] in Hin; [| destruct Hin].
    destruct (exec _ net) as [[t o] rest] eqn:Ex. cbn [fst] in Hin.
    assert (P : polite (fun r => r = request_of
                          (lit "/api/books?Q=" ++ eq ++ lit "&Page=" ++
                           Num.toString (page st) ++ lit "&PageSize=" ++
                           Num.toString (pageSize st)) None)
                  (bind (apiFetch
                           (lit "/api/books?Q=" ++ eq ++ lit "&Page=" ++
                            Num.toString (page st) ++ lit "&PageSize=" ++
                            Num.toString (pageSize st)) None)
                     (fun r => bind (if ok r && isPaged (body r)
                                     then setState (SetBooks (items_of (body r)))
                                     else Ret tt) (fun _ => Ret r)))).
    { apply polite_bind; [apply polite_apiFetch; reflexivity |].
      intros r. apply polite_listing. }
    pose proof (polite_requests _ _ P net t o rest Ex) as F.
    rewrite Forall_forall in F. rewrite (F req Hin).
    exists eq. repeat split. apply (encode_safe _ _ Hq E).
  - unfold searchGet_fn in Hin.
    destruct (URI.encodeURIComponent (searchQ st)) as [eq | e] eqn:E;
      cbn [lift bind] in Hin; [| destruct Hin].
    destruct (exec _ net) as [[t o] rest] eqn:Ex. cbn [fst] in Hin.
    assert (P : polite (fun r => r = request_of (lit "/api/search?q=" ++ eq) None)
                  (bind (apiFetch (lit "/api/search?q=" ++ eq) None)
                     (fun r => bind (if ok r && hasItems (body r)
                                     then setState
                                            (SetSearchItems (items_of (body r)))
                                     else Ret tt) (fun _ => Ret r)))).
    { apply polite_bind; [apply polite_apiFetch; reflexivity |].
      intros r. apply polite_listing. }
    pose proof (polite_requests _ _ P net t o rest Ex) as F.
    rewrite Forall_forall in F. rewrite (F req Hin).
    exists eq. repeat split. apply (encode_safe _ _ Hs E).
Qed.

(** ** The guards, one against the other *)

(** X5. The paged guard is the stronger one: what [isPaged] accepts,
    [hasItems] accepts.  What [hasItems] accepts is a plain object, never
    an array, and its [items], which the page then stores, is the array
    found under that key. *)
Theorem paged_has_items :
  (forall x, isPaged x = true -> hasItems x = true) /\
  (forall x, hasItems x = true ->
     exists props l,
       x = VObj props /\ own props (lit "items") = Some (VArr l) /\
       items_of x = l) /\
  (forall xs, hasItems (VArr xs) = false /\ isPaged (VArr xs) = false) /\
  hasItems VNull = false /\ isPaged VNull = false.
Proof.
  split; [| split; [| split; [| split; reflexivity]]].
  - intros x. unfold isPaged, hasItems.
    destruct (isRecord x); cbn [negb andb]; [| discriminate].
    rewrite !andb_true_iff. tauto.
  - intros x. unfold hasItems, items_of.
    destruct x as [| |bo|n|t|xs|props]; cbn; try discriminate.
    destruct (own props _) as [v |] eqn:E; [| discriminate].
    destruct v; try discriminate.
    intros _. exists props, xs. repeat split. exact E.
  - intros xs. split; reflexivity.
Qed.

(** ** A listing whose guard passes *)




(** ** Entries and commas *)

Lemma split_go_comma_app (cur a b : jsstring) :
  Str.split_go [44%N] 0 cur (a ++ 44%N :: b)
  = Str.split_go [44%N] 0 cur a ++ Str.split_go [44%N] 0 [] b.
Proof.
  revert cur; induction a as [|c a IH]; intros cur.
  - reflexivity.
  - rewrite <- app_comm_cons.
    cbn [Str.split_go Str.starts_with List.length Nat.sub].
    destruct (N.eqb 44 c); cbn [andb]; rewrite IH; reflexivity.
Qed.

Lemma split_go_no_comma (cur s : jsstring) :
  ~ In 44%N s -> Str.split_go [44%N] 0 cur s = [rev cur ++ s].
Proof.
  revert cur; induction s as [|c s IH]; intros cur Hs.
  - cbn. rewrite app_nil_r. reflexivity.
  - cbn [Str.split_go Str.starts_with List.length Nat.sub].
    destruct (N.eqb_spec 44 c) as [E | E]; [exfalso; apply Hs; left; auto |].
    cbn [andb]. rewrite IH by (intros H; apply Hs; right; exact H).
    cbn [rev]. rewrite <- app_assoc. reflexivity.
Qed.

Lemma trim_start_blank (s : jsstring) : blank s -> Str.trim_start s = [].
Proof.
  induction 1 as [|c s Hc _ IH]; [reflexivity |].
  cbn [Str.trim_start]. rewrite Hc. exact IH.
Qed.

Lemma trim_start_nil (s : jsstring) : Str.trim_start s = [] -> blank s.
Proof.
  induction s as [|c s IH]; [constructor |].
  cbn [Str.trim_start]. destruct (Str.is_ws c) eqn:E; [| discriminate].
  intros H. constructor; [exact E | apply IH; exact H].
Qed.

Lemma trim_start_all (s : jsstring) :
  blank (Str.trim_start s) -> Str.trim_start s = [].
Proof.
  induction s as [|c s IH]; [reflexivity |].
  cbn [Str.trim_start]. destruct (Str.is_ws c) eqn:E; [exact IH |].
  intros H. inversion H; congruence.
Qed.

(** [trim] leaves nothing exactly of the blank texts. *)
Lemma trim_nil_iff (s : jsstring) : Str.trim s = [] <-> blank s.
Proof.
  unfold Str.trim, Str.trim_end. split.
  - intros H. apply (f_equal (@rev N)) in H. rewrite rev_involutive in H.
    cbn [rev] in H. apply trim_start_nil in H.
    apply Forall_rev in H. rewrite rev_involutive in H.
    apply trim_start_nil. apply trim_start_all. exact H.
  - intros H. rewrite (trim_start_blank s H). reflexivity.
Qed.

(** X7. The selected ids of two texts joined by a comma are the ids of
    the first followed by the ids of the second, so order and repetitions
    are kept; a text without a comma is one entry; and a blank text, the
    empty one included, gives no id. *)
Theorem selected_ids_compose :
  (forall a b,
     selectedIdList (a ++ lit "," ++ b) = selectedIdList a ++ selectedIdList b) /\
  (forall s, ~ In 44%N s ->
     selectedIdList s
     = if finite_positive (parseInt (Str.trim s) 10)
       then [parseInt (Str.trim s) 10] else []) /\
  (forall s, blank s -> selectedIdList s = []).
Proof.
  assert (One : forall s, ~ In 44%N s ->
            selectedIdList s
            = if finite_positive (parseInt (Str.trim s) 10)
              then [parseInt (Str.trim s) 10] else []).
  { intros s Hs. unfold selectedIdList. change (lit ",") with [44%N].
    unfold Str.split. rewrite (split_go_no_comma [] s Hs).
    cbn [rev app List.map List.filter].
    rewrite kept_iff_finite_positive. reflexivity. }
  split; [| split; [exact One |]].
  - intros a b. unfold selectedIdList. change (lit ",") with [44%N].
    unfold Str.split. change ([44%N] ++ b) with (44%N :: b).
    rewrite split_go_comma_app, map_app, filter_app. reflexivity.
  - intros s Hs. rewrite One.
    + rewrite (proj2 (trim_nil_iff s) Hs). reflexivity.
    + intros H. unfold blank in Hs. rewrite Forall_forall in Hs.
      specialize (Hs _ H). discriminate.
Qed.

(** ** The Search buttons *)

Lemma length_zero_iff (l : jsstring) : Nat.eqb (List.length l) 0 = true <-> l = [].
Proof. destruct l; simpl; split; congruence. Qed.

(** X8. A Search button is disabled exactly when a call is in flight
    or the query holds nothing but white space. *)
Theorem search_needs_text st :
  (disabled SearchGet st = true <-> busy st = true \/ blank (searchQ st)) /\
  (disabled SearchPost st = true <-> busy st = true \/ blank (searchQ st)).
Proof.
  split; cbn [disabled]; rewrite orb_true_iff, length_zero_iff, trim_nil_iff;
    reflexivity.
Qed.

(** ** What an enabled button guarantees *)

Lemma click_requests b st title fn path init net req :
  action b st = Some (title, fn) ->
  polite (fun r => r = request_of path init) fn ->
  In req (requests (fst (fst (exec (onClick b st) net)))) ->
  req = request_of path init.
Proof.
  intros Ha Hp Hin.
  rewrite (onClick_run b st title fn Ha), run_requests in Hin.
  destruct (exec fn net) as [[t o] rest] eqn:E. cbn [fst] in Hin.
  pose proof (polite_requests _ _ Hp net t o rest E) as F.
  rewrite Forall_forall in F. exact (F req Hin).
Qed.

(** X10. A request sent by an enabled button carries what the button
    was enabled for: Upload a form with each picked file, at least one,
    under the key [files]; Process Selected a non-empty list of ids, all
    finite and strictly positive; Process One a book id that is not at
    most zero; and a Search is never started on a blank query. *)
Theorem guarded_requests b st net req :
  disabled b st = false ->
  In req (requests (fst (fst (exec (onClick b st) net)))) ->
  request_guarantee b st req.
Proof.
  intros Hd Hin.
  destruct b; cbn [request_guarantee]; try exact I;
    cbn [disabled] in Hd; apply orb_false_iff in Hd; destruct Hd as [_ Hd].
  - destruct (files st) as [fl |] eqn:Ef; [| discriminate].
    rewrite (click_requests Upload st _ _ (lit "/api/books/upload")
               (init_post None (Some (BodyFormData
                  (List.map (fun f => (lit "files", f)) fl)))) net req
               eq_refl); [| | exact Hin].
    + exists fl. repeat split. intros ->. discriminate.
    + unfold upload_fn. rewrite Ef. apply polite_apiFetch. reflexivity.
  - rewrite (click_requests ProcessOne st _ _ _ _ net req eq_refl
               ltac:(apply polite_apiFetch; reflexivity) Hin).
    split; [exact Hd | reflexivity].
  - rewrite (click_requests ProcessSelected st _ _ _ _ net req eq_refl
               ltac:(apply polite_apiFetch; reflexivity) Hin).
    split; [intros E; rewrite E in Hd; discriminate |].
    split; [| split; reflexivity].
    apply Forall_forall. intros n Hn. unfold selectedIdList in Hn.
    apply filter_In in Hn. destruct Hn as [_ Hn].
    rewrite kept_iff_finite_positive in Hn. exact Hn.
  - intros Hb. apply trim_nil_iff in Hb. rewrite Hb in Hd. discriminate.
  - intros Hb. apply trim_nil_iff in Hb. rewrite Hb in Hd. discriminate.
Qed.

(** ** The history of the log *)

Lemma tame_listing_lists (g : bool) (u : update) (r : ApiResult) :
  list_update u = true ->
  tame list_update 0 (bind (if g then setState u else Ret tt) (fun _ => Ret r)).
Proof.
  intros Hu. destruct g; cbn [bind setState]; repeat constructor. exact Hu.
Qed.

Lemma action_lists b st title fn :
  action b st = Some (title, fn) -> tame list_update 1 fn.
Proof.
  destruct b; cbn [action]; intros H; try discriminate;
    injection H as _ <-; try apply tame_apiFetch.
  - unfold loadBooks_fn.
    apply (tame_bind list_update 0 1); [apply tame_lift | intros eq].
    apply (tame_bind list_update 1 0); [apply tame_apiFetch | intros r].
    apply tame_listing_lists. reflexivity.
  - unfold searchGet_fn.
    apply (tame_bind list_update 0 1); [apply tame_lift | intros eq].
    apply (tame_bind list_update 1 0); [apply tame_apiFetch | intros r].
    apply tame_listing_lists. reflexivity.
  - unfold searchPost_fn.
    apply (tame_bind list_update 1 0); [apply tame_apiFetch | intros r].
    apply tame_listing_lists. reflexivity.
Qed.

Lemma run_tail_logging title fn n :
  tame list_update n fn -> logging n (run_tail title fn).
Proof.
  induction 1 as [n a|n e|n u k Hu _ IH|n w tg k _ IH|n req k _ IH];
    unfold run_tail in *; cbn [bind try_catch finally setState].
  - unfold appendLog, log_block. destruct (formatBody (body a));
      cbn [lift bind try_catch finally setState];
      apply logging_end; discriminate.
  - apply logging_end. discriminate.
  - apply logging_set; assumption.
  - apply logging_open. exact IH.
  - apply logging_await. exact IH.
Qed.

Lemma list_update_keeps (u : update) (st : AppState) :
  list_update u = true ->
  log (apply u st) = log st /\ busy (apply u st) = busy st /\
  form (apply u st) = form st.
Proof. destruct st, u; simpl; intros H; try discriminate; auto. Qed.

Lemma drive_logging n m :
  logging n m ->
  forall c,
    form (app (drive m c)) = form (app c) /\
    ((inflight (drive m c) = inflight c /\
      busy (app (drive m c)) = false /\
      exists text, text <> [] /\ log (app (drive m c)) = text ++ log (app c)) \/
     (exists n' k,
        n = S n' /\ inflight (drive m c) = inflight c ++ [k] /\
        (forall ans, logging n' (k ans)) /\
        log (app (drive m c)) = log (app c) /\
        busy (app (drive m c)) = busy (app c))).
Proof.
  induction 1 as [n text Ht|n u k Hu _ IH|n w tg k _ IH|n req k Hk _];
    intros c; cbn [drive].
  - cbn [app inflight]. split; [destruct (app c); reflexivity |].
    left. split; [reflexivity |]. split; [apply busy_reset |].
    exists text. split; [exact Ht |]. destruct (app c); reflexivity.
  - destruct (list_update_keeps u (app c) Hu) as [Hl [Hb Hf]].
    destruct (IH {| app := apply u (app c); inflight := inflight c;
                    windows := windows c; unhandled := unhandled c |})
      as [Hf' H]; cbn [app inflight] in *.
    split; [congruence |]. rewrite Hl, Hb in H. exact H.
  - destruct (IH {| app := app c; inflight := inflight c;
                    windows := windows c ++ [(w, tg)];
                    unhandled := unhandled c |})
      as [Hf' H]; cbn [app inflight] in *.
    split; assumption.
  - cbn [app inflight]. split; [reflexivity |].
    right. exists n, k. auto.
Qed.

Lemma inflight_logging c :
  reachable c ->
  forall k, In k (inflight c) -> forall ans, logging 0 (k ans).
Proof.
  induction 1 as [|c e c' Hr IH Hstep]; [intros k [] |].
  pose proof (reachable_gate c Hr) as [_ Hg].
  destruct Hstep as [b c Hd | i c | c before k0 after ans0 E].
  - assert (Hi : inflight c = []).
    { destruct Hg as [[_ Hi] | [Hb _]]; [exact Hi |].
      rewrite (disabled_when_busy b _ Hb) in Hd. discriminate. }
    destruct (onClick_cases b (app c)) as [-> | [-> | [title [fn [Ha ->]]]]].
    + cbn [drive inflight setState]. rewrite Hi. intros k [].
    + cbn [drive inflight setState]. rewrite Hi. intros k [].
    + cbn [drive].
      destruct (drive_logging 1 (run_tail title fn)
                  (run_tail_logging title fn 1 (action_lists b _ title fn Ha))
                  {| app := apply (SetBusy true) (app c); inflight := inflight c;
                     windows := windows c; unhandled := unhandled c |})
        as [_ [[Hi' _] | [n' [k' [Hn [Hi' [Hk _]]]]]]]; cbn [inflight] in Hi';
        rewrite Hi', Hi.
      * intros k [].
      * injection Hn as <-. intros k [<- | []]. exact Hk.
  - assert (Ei : inflight (drive (onChange i) c) = inflight c)
      by (destruct i; reflexivity).
    rewrite Ei. exact IH.
  - assert (Hk0 : forall ans, logging 0 (k0 ans)).
    { apply IH. rewrite E. apply in_or_app. right. left. reflexivity. }
    destruct (drive_logging 0 (k0 ans0) (Hk0 ans0)
                {| app := app c; inflight := before ++ after;
                   windows := windows c; unhandled := unhandled c |})
      as [_ [[Hi' _] | [n' [k' [Hn _]]]]]; [| discriminate].
    cbn [inflight] in Hi'. rewrite Hi'. intros k Hin. apply IH.
    rewrite E. apply in_app_or in Hin. apply in_or_app.
    destruct Hin; [left | right; right]; assumption.
Qed.

(** X11. The log is a history, newest first: an edit of an input leaves
    it alone, with the flag, the lists and the call in flight; a click
    leaves it alone or, on Clear Log only, empties it, or prepends the
    one block of an action that ended in the click itself; and a call that
    settles prepends exactly one block, not empty, to what the log held.
    Neither a click nor a settlement changes a field of the form. *)
Theorem log_history c e c' :
  reachable c -> step c e c' -> event_effect e c c'.
Proof.
  intros Hr Hstep.
  pose proof (inflight_logging c Hr) as Hl.
  destruct Hstep as [b c Hd | i c | c before k0 after ans0 E];
    cbn [event_effect].
  - destruct (onClick_cases b (app c)) as [E | [E | [title [fn [Ha E]]]]].
    + rewrite E. cbn [drive app]. split; [reflexivity | left; reflexivity].
    + rewrite E. cbn [drive app setState].
      split; [destruct (app c); reflexivity |].
      right. left. split; [| destruct (app c); reflexivity].
      destruct b; try discriminate; try reflexivity;
        cbn [onClick action] in E; discriminate.
    + rewrite E. cbn [drive].
      destruct (drive_logging 1 (run_tail title fn)
                  (run_tail_logging title fn 1 (action_lists b _ title fn Ha))
                  {| app := apply (SetBusy true) (app c); inflight := inflight c;
                     windows := windows c; unhandled := unhandled c |})
        as [Hf H]; cbn [app] in *.
      assert (Hf0 : form (apply (SetBusy true) (app c)) = form (app c))
        by (destruct (app c); reflexivity).
      assert (Hl0 : log (apply (SetBusy true) (app c)) = log (app c))
        by (destruct (app c); reflexivity).
      split; [congruence |].
      destruct H as [[_ [_ [text [Ht Hlog]]]] | [n' [k' [_ [_ [_ [Hlog _]]]]]]].
      * right. right. exists text. split; [exact Ht | congruence].
      * left. congruence.
  - destruct i; cbn [onChange drive setState app inflight];
      destruct (app c); repeat split; reflexivity.
  - assert (Hk0 : forall ans, logging 0 (k0 ans)).
    { apply Hl. rewrite E. apply in_or_app. right. left. reflexivity. }
    destruct (drive_logging 0 (k0 ans0) (Hk0 ans0)
                {| app := app c; inflight := before ++ after;
                   windows := windows c; unhandled := unhandled c |})
      as [Hf [[_ [_ H]] | [n' [k' [Hn _]]]]]; [| discriminate].
    cbn [app] in *. split; assumption.
Qed.

(** ** The landing page *)

(** X12. The Test API button of the landing page asks [/api/health],
    once, whatever comes of it.  It alerts the body re-serialised as
    compact JSON when the body parses and is nested no deeper than
    [JSON.stringify] takes on the host, whatever the status and the
    declared content type; what it alerts is never "undefined".  Nothing
    catches a failure: a rejected fetch, a body that cannot be read or
    is not JSON, and the RangeError of a body nested too deep are thrown
    out of the handler, with no alert. *)
Theorem landing_alert res net :
  exec Landing.onClick (Resolved res :: net)
  = ([Requested Landing.request],
     match payload res with
     | Ok text =>
         match JSON.parse text with
         | Some v =>
             if Nat.leb (depth v) stringify_depth
             then Returned (interpolate (JSON.text_of v 0))
             else Threw RangeError
         | None => Threw SyntaxError
         end
     | Err e => Threw e
     end, net) /\
  (forall text v,
     JSON.parse text = Some v -> exists shown, JSON.text_of v 0 = Some shown) /\
  (forall e,
     exec Landing.onClick (Rejected e :: net)
     = ([Requested Landing.request], Threw e, net)).
Proof.
  split; [| split].
  - unfold Landing.onClick, fetch, Response_json, Response_text, JSON.stringify.
    cbn [bind exec].
    destruct (payload res) as [text | e]; cbn [lift bind exec]; [| reflexivity].
    destruct (JSON.parse text) as [v |]; cbn [lift bind exec]; [| reflexivity].
    destruct (Nat.leb (depth v) stringify_depth); reflexivity.
  - intros text v Hv. apply text_of_defined. apply (parse_defined _ _ Hv).
  - intros e. reflexivity.
Qed.

Example landing_alert_example :
  exec Landing.onClick
    [Resolved (text_response 500 (json_text "{ 'status' : 'up' }"))]
  = ([Requested Landing.request],
     Returned (json_text "{'status':'up'}"), []).
Proof. vm_compute. reflexivity. Qed.

(** ** The proxy *)

Lemma starts_with_app (p r : jsstring) : Str.starts_with p (p ++ r) = true.
Proof. apply starts_with_iff. exists r. reflexivity. Qed.

Lemma under_api_forwarded (u : jsstring) :
  Str.starts_with (lit "/api/") u = true ->
  Vite.forwarded Vite.proxy u = Vite.Forwarded Vite.API_TARGET /\
  Vite.forwarded Vite.proxy_api_only u = Vite.ProxyError.
Proof.
  intros H. apply starts_with_iff in H. destruct H as [r ->].
  change (lit "/api/" ++ r) with (lit "/api" ++ (47%N :: r)).
  unfold Vite.forwarded, Vite.proxy, Vite.proxy_api_only.
  rewrite starts_with_app. split; reflexivity.
Qed.

(** X13. Under [vite.config.ts] every request of the console, from any
    button in any state, and the request of the landing page are
    forwarded by the development server to the API target, and so is the
    Swagger window.  Under the configuration that lists [/api] alone, with
    a target that names no protocol, none of these requests is forwarded:
    each is matched by the key and ends in the error of the proxy, and
    the Swagger window is not proxied at all. *)
Theorem calls_are_forwarded b st net :
  Forall (fun req =>
            Vite.forwarded Vite.proxy (url req)
            = Vite.Forwarded Vite.API_TARGET /\
            Vite.forwarded Vite.proxy_api_only (url req) = Vite.ProxyError)
    (requests (fst (fst (exec (onClick b st) net)))) /\
  Vite.forwarded Vite.proxy (url Landing.request)
  = Vite.Forwarded Vite.API_TARGET /\
  Vite.forwarded Vite.proxy_api_only (url Landing.request) = Vite.ProxyError /\
  exec (onClick Swagger st) net
  = ([Opened (lit "/swagger") (lit "_blank")], Returned tt, net) /\
  Vite.forwarded Vite.proxy (lit "/swagger") = Vite.Forwarded Vite.API_TARGET /\
  Vite.forwarded Vite.proxy_api_only (lit "/swagger") = Vite.NotProxied /\
  Vite.has_protocol Vite.API_TARGET = true /\
  Forall (fun kt => Vite.has_protocol (snd kt) = false) Vite.proxy_api_only.
Proof.
  split; [| repeat split; repeat constructor].
  destruct (action b st) as [[title fn] |] eqn:Ha.
  - rewrite (onClick_run b st title fn Ha), run_requests.
    destruct (exec fn net) as [[t o] rest] eqn:E. cbn [fst].
    pose proof (polite_requests console_request fn
                  (action_polite b st title fn Ha) net t o rest E) as F.
    eapply Forall_impl; [| exact F].
    intros req [_ [Hu _]]. apply under_api_forwarded. exact Hu.
  - destruct b; try discriminate; cbn; constructor.
Qed.

(** ** The numeric fields *)

Lemma or_else_decimal (ds : list Z) (d : jsstring) :
  ds <> [] -> or_else (decimal ds) d = decimal ds.
Proof. destruct ds; [congruence | reflexivity]. Qed.

Lemma parseInt_decimal (ds : list Z) :
  ds <> [] -> all_digits ds -> 0 < math_int 10 ds < two_53 ->
  parseInt (decimal ds) 10 = Int (math_int 10 ds).
Proof.
  intros Hne Hds Hv.
  rewrite <- (F_of_Z_exact (math_int 10 ds)) by lia.
  rewrite <- (parseInt_prefix false ds [] Hne Hds I) by lia.
  cbn [app]. rewrite app_nil_r. reflexivity.
Qed.

(** X14. Emptying a numeric field puts its default back: page 1, page
    size 20 and book id 0, the last of which disables Process One.  Digits
    typed into the field, of a value from 1 to below [2^53], set it to
    that value, and such a book id enables Process One when no call is in
    flight. *)
Theorem numeric_fields st :
  page (edited (InPage []) st) = Int 1 /\
  pageSize (edited (InPageSize []) st) = Int 20 /\
  processId (edited (InProcessId []) st) = Int 0 /\
  disabled ProcessOne (edited (InProcessId []) st) = true /\
  (forall ds,
     ds <> [] -> all_digits ds -> 0 < math_int 10 ds < two_53 ->
     page (edited (InPage (decimal ds)) st) = Int (math_int 10 ds) /\
     pageSize (edited (InPageSize (decimal ds)) st) = Int (math_int 10 ds) /\
     processId (edited (InProcessId (decimal ds)) st) = Int (math_int 10 ds) /\
     disabled ProcessOne (edited (InProcessId (decimal ds)) st) = busy st).
Proof.
  unfold edited, state_after.
  split; [destruct st; reflexivity |].
  split; [destruct st; reflexivity |].
  split; [destruct st; reflexivity |].
  split; [destruct st; cbn; apply orb_true_r |].
  intros ds Hne Hds Hv.
  cbn [onChange setState exec fst updates flat_map List.app apply_all fold_left].
  rewrite !or_else_decimal by exact Hne.
  rewrite (parseInt_decimal ds Hne Hds Hv).
  destruct st; cbn [apply page pageSize processId disabled busy].
  repeat split.
  unfold Num.le, Int, Q_leb. cbn [val inject_Z Qnum Qden].
  destruct (Z.leb_spec (math_int 10 ds * 1) (0 * 1)); [lia |].
  apply orb_false_r.
Qed.

(** ** What is typed is what is sent *)

Lemma hex_digit_value (d : Z) :
  0 <= d < 16 -> digit_value (JSON.hex_digit d) = Some d.
Proof.
  intros H.
  assert (E : d = 0 \/ d = 1 \/ d = 2 \/ d = 3 \/ d = 4 \/ d = 5 \/ d = 6 \/
              d = 7 \/ d = 8 \/ d = 9 \/ d = 10 \/ d = 11 \/ d = 12 \/
              d = 13 \/ d = 14 \/ d = 15) by lia.
  repeat (destruct E as [E | E]); subst; reflexivity.
Qed.

Lemma hex4_digits (z : Z) :
  0 <= z < 65536 ->
  JSON.hex4 (JSON.hex_digit (z / 4096 mod 16)) (JSON.hex_digit (z / 256 mod 16))
            (JSON.hex_digit (z / 16 mod 16)) (JSON.hex_digit (z mod 16))
  = Some (Z.to_N z).
Proof.
  intros H. unfold JSON.hex4.
  pose proof (Z.mod_pos_bound (z / 4096) 16 ltac:(lia)).
  pose proof (Z.mod_pos_bound (z / 256) 16 ltac:(lia)).
  pose proof (Z.mod_pos_bound (z / 16) 16 ltac:(lia)).
  pose proof (Z.mod_pos_bound z 16 ltac:(lia)).
  rewrite !hex_digit_value by assumption.
  destruct (Z.ltb_spec (z / 4096 mod 16) 16); [| lia].
  destruct (Z.ltb_spec (z / 256 mod 16) 16); [| lia].
  destruct (Z.ltb_spec (z / 16 mod 16) 16); [| lia].
  destruct (Z.ltb_spec (z mod 16) 16); [| lia].
  cbn [andb]. f_equal. f_equal.
  assert (E2 : z / 16 / 16 = z / 256)
    by (rewrite Z.div_div by lia; reflexivity).
  assert (E3 : z / 256 / 16 = z / 4096)
    by (rewrite Z.div_div by lia; reflexivity).
  rewrite <- E3, <- E2.
  Z.to_euclidean_division_equations. lia.
Qed.

Lemma parse_escape (e u : N) (X : jsstring) :
  N.eqb e 117 = false -> JSON.simple_escape e = Some u ->
  JSON.parse_chars (92%N :: e :: X) = JSON.cons_char u (JSON.parse_chars X).
Proof.
  intros H1 H2. cbn [JSON.parse_chars].
  change (N.eqb 92 34) with false. change (N.eqb 92 92) with true.
  cbv iota. rewrite H1, H2. reflexivity.
Qed.

Lemma parse_plain (c : N) (X : jsstring) :
  N.eqb c 34 = false -> N.eqb c 92 = false -> (Z.of_N c <? 32) = false ->
  JSON.parse_chars (c :: X) = JSON.cons_char c (JSON.parse_chars X).
Proof.
  intros H1 H2 H3. cbn [JSON.parse_chars]. rewrite H1, H2, H3. reflexivity.
Qed.

Lemma parse_unicode (c : N) (X : jsstring) :
  code_unit c ->
  JSON.parse_chars (JSON.unicode_escape c ++ X)
  = JSON.cons_char c (JSON.parse_chars X).
Proof.
  intros Hc. unfold code_unit in Hc. unfold JSON.unicode_escape.
  change (lit "\u" ++ ?l) with (92%N :: 117%N :: l).
  cbn [List.app JSON.parse_chars].
  change (N.eqb 92 34) with false. change (N.eqb 92 92) with true.
  change (N.eqb 117 117) with true. cbv iota.
  rewrite hex4_digits by lia. rewrite N2Z.id. reflexivity.
Qed.

Lemma parse_quote_upto (n : nat) :
  forall s rest,
    (List.length s <= n)%nat -> Forall code_unit s ->
    JSON.parse_chars (JSON.quote_chars s ++ 34%N :: rest) = Some (s, rest).
Proof.
  induction n as [|n IH]; intros s rest Hn Hs.
  - destruct s; [reflexivity | simpl in Hn; lia].
  - destruct s as [|c s']; [reflexivity |]. simpl in Hn.
    inversion Hs as [|? ? Hc Hs']; subst.
    assert (IH' := IH s' rest ltac:(lia) Hs').
    cbn [JSON.quote_chars].
    destruct (N.eqb_spec c 8) as [-> |];
      [rewrite <- app_assoc; change (lit "\b" ++ ?X) with (92%N :: 98%N :: X);
       rewrite (parse_escape 98 8) by reflexivity; rewrite IH'; reflexivity |].
    destruct (N.eqb_spec c 9) as [-> |];
      [rewrite <- app_assoc; change (lit "\t" ++ ?X) with (92%N :: 116%N :: X);
       rewrite (parse_escape 116 9) by reflexivity; rewrite IH'; reflexivity |].
    destruct (N.eqb_spec c 10) as [-> |];
      [rewrite <- app_assoc; change (lit "\n" ++ ?X) with (92%N :: 110%N :: X);
       rewrite (parse_escape 110 10) by reflexivity; rewrite IH'; reflexivity |].
    destruct (N.eqb_spec c 12) as [-> |];
      [rewrite <- app_assoc; change (lit "\f" ++ ?X) with (92%N :: 102%N :: X);
       rewrite (parse_escape 102 12) by reflexivity; rewrite IH'; reflexivity |].
    destruct (N.eqb_spec c 13) as [-> |];
      [rewrite <- app_assoc; change (lit "\r" ++ ?X) with (92%N :: 114%N :: X);
       rewrite (parse_escape 114 13) by reflexivity; rewrite IH'; reflexivity |].
    destruct (N.eqb_spec c 34) as [-> | H34];
      [rewrite <- !app_comm_cons;
       rewrite (parse_escape 34 34) by reflexivity; rewrite IH'; reflexivity |].
    destruct (N.eqb_spec c 92) as [-> | H92];
      [rewrite <- !app_comm_cons;
       rewrite (parse_escape 92 92) by reflexivity; rewrite IH'; reflexivity |].
    apply N.eqb_neq in H34, H92.
    destruct (Z.of_N c <? 32) eqn:H32;
      [rewrite <- app_assoc, parse_unicode by exact Hc; rewrite IH'; reflexivity |].
    destruct (JSON.is_high_surrogate c) eqn:Hh.
    + destruct s' as [|l s''].
      * rewrite parse_unicode by exact Hc. reflexivity.
      * destruct (JSON.is_low_surrogate l) eqn:Hl.
        -- inversion Hs' as [|? ? Hcl Hs'']; subst. simpl in Hn.
           rewrite <- !app_comm_cons.
           rewrite parse_plain by assumption.
           assert (Hl34 : N.eqb l 34 = false /\ N.eqb l 92 = false /\
                          (Z.of_N l <? 32) = false).
           { unfold JSON.is_low_surrogate in Hl. apply andb_true_iff in Hl.
             destruct Hl as [Hl _]. apply Z.leb_le in Hl.
             repeat split; [apply N.eqb_neq; lia | apply N.eqb_neq; lia |
                            apply Z.ltb_ge; lia]. }
           destruct Hl34 as [A [B C]].
           rewrite parse_plain by assumption.
           rewrite (IH s'' rest ltac:(lia) Hs''). reflexivity.
        -- rewrite <- app_assoc, parse_unicode by exact Hc.
           rewrite IH'. reflexivity.
    + destruct (JSON.is_low_surrogate c);
        [rewrite <- app_assoc, parse_unicode by exact Hc; rewrite IH'; reflexivity |].
      rewrite <- app_comm_cons. rewrite parse_plain by assumption.
      rewrite IH'. reflexivity.
Qed.

Lemma parse_value_string f s X :
  Forall code_unit s ->
  JSON.parse_value (S f) (34%N :: JSON.quote_chars s ++ 34%N :: X)
  = Some (VStr s, X).
Proof.
  intros Hs. cbn [JSON.parse_value]. unfold JSON.parse_step.
  cbn [JSON.skip_ws]. change (JSON.is_json_ws 34) with false. cbv iota zeta.
  cbn [JSON.head_is List.tl].
  change (N.eqb 34 110) with false. change (N.eqb 34 116) with false.
  change (N.eqb 34 102) with false. change (N.eqb 34 34) with true.
  cbv iota.
  rewrite (parse_quote_upto (List.length s) s X (le_n _) Hs). reflexivity.
Qed.

Lemma members_text_fields pv :
  (forall s X, Forall code_unit s ->
     pv (34%N :: JSON.quote_chars s ++ 34%N :: X) = Some (VStr s, X)) ->
  forall props n acc rest,
    props <> [] -> (List.length props <= n)%nat ->
    Forall (fun kv => Forall code_unit (fst kv) /\ Forall code_unit (snd kv)) props ->
    JSON.members pv n acc (text_fields props ++ 125%N :: rest)
    = Some (VObj (as_object acc props), rest).
Proof.
  intros Hpv props. induction props as [|[k v] props IH];
    intros n acc rest Hne Hn Hp; [congruence |].
  destruct n as [|n]; [simpl in Hn; lia |]. simpl in Hn.
  inversion Hp as [|? ? [Hk Hv] Hp']; subst. cbn [fst snd] in Hk, Hv.
  assert (Step : forall tail,
            JSON.members pv (S n) acc
              ((JSON.quote k ++ lit ":" ++ JSON.quote v) ++ tail)
            = let acc' := JSON.obj_define acc k (VStr v) in
              let r := JSON.skip_ws tail in
              if JSON.head_is 44 r then JSON.members pv n acc' (List.tl r)
              else if JSON.head_is 125 r then Some (VObj acc', List.tl r)
              else None).
  { intros tail. unfold JSON.quote.
    change (lit ":" ++ ?X) with (58%N :: X).
    rewrite <- !app_assoc, <- !app_comm_cons.
    cbn [JSON.members]. cbv zeta.
    cbn [JSON.skip_ws]. change (JSON.is_json_ws 34) with false. cbv iota.
    cbn [JSON.head_is List.tl]. change (N.eqb 34 34) with true. cbv iota.
    rewrite <- app_assoc.
    change ([34%N] ++ ?X) with (34%N :: X).
    rewrite (parse_quote_upto (List.length k) k _ (le_n _) Hk).
    cbn [JSON.skip_ws]. change (JSON.is_json_ws 58) with false. cbv iota.
    cbn [JSON.head_is List.tl]. change (N.eqb 58 58) with true. cbv iota.
    rewrite <- app_assoc.
    change ([34%N] ++ ?X) with (34%N :: X).
    rewrite (Hpv v _ Hv). reflexivity. }
  destruct props as [|kv props].
  - assert (Eq : text_fields [(k, v)] ++ 125%N :: rest
                 = (JSON.quote k ++ lit ":" ++ JSON.quote v) ++ 125%N :: rest)
      by reflexivity.
    rewrite Eq, Step. cbn [JSON.skip_ws]. change (JSON.is_json_ws 125) with false.
    cbv iota zeta. cbn [JSON.head_is List.tl].
    change (N.eqb 125 44) with false. change (N.eqb 125 125) with true.
    reflexivity.
  - assert (Eq : text_fields ((k, v) :: kv :: props) ++ 125%N :: rest
                 = (JSON.quote k ++ lit ":" ++ JSON.quote v) ++
                   44%N :: (text_fields (kv :: props) ++ 125%N :: rest)).
    { unfold text_fields. cbn [List.map Str.join fst snd].
      rewrite <- !app_assoc. reflexivity. }
    rewrite Eq, Step.
    cbn [JSON.skip_ws]. change (JSON.is_json_ws 44) with false.
    cbv iota zeta. cbn [JSON.head_is List.tl].
    change (N.eqb 44 44) with true. cbv iota.
    rewrite IH; [reflexivity | discriminate | simpl in *; lia | exact Hp'].
Qed.

Lemma text_fields_length props :
  (List.length props <= List.length (text_fields props))%nat.
Proof.
  induction props as [|[k v] props IH]; [simpl; lia |].
  destruct props as [|kv props].
  - unfold text_fields. cbn [List.map Str.join fst snd JSON.quote].
    rewrite !length_app. simpl. lia.
  - assert (Eq : text_fields ((k, v) :: kv :: props)
                 = (JSON.quote k ++ lit ":" ++ JSON.quote v) ++
                   44%N :: text_fields (kv :: props)).
    { unfold text_fields. cbn [List.map Str.join fst snd].
      rewrite <- !app_assoc. reflexivity. }
    rewrite Eq, length_app. cbn [List.length] in *. lia.
Qed.

Lemma text_fields_head props rest :
  props <> [] ->
  exists Y, text_fields props ++ rest = 34%N :: Y.
Proof.
  destruct props as [|[k v] props]; [congruence |]. intros _.
  destruct props as [|kv props]; unfold text_fields, JSON.quote;
    cbn [List.map Str.join fst snd]; rewrite <- !app_comm_cons;
    eexists; reflexivity.
Qed.

Lemma parse_text_object props :
  props <> [] ->
  Forall (fun kv => Forall code_unit (fst kv) /\ Forall code_unit (snd kv)) props ->
  JSON.parse (lit "{" ++ text_fields props ++ lit "}")
  = Some (VObj (as_object [] props)).
Proof.
  intros Hne Hp. unfold JSON.parse.
  change (lit "{" ++ ?X) with (123%N :: X). change (lit "}") with [125%N].
  pose proof (text_fields_length props) as HL.
  cbn [List.length].
  destruct (List.length (text_fields props ++ [125%N])) as [|n] eqn:En.
  { rewrite length_app in En. simpl in En. lia. }
  rewrite parse_value_S. unfold JSON.parse_step.
  cbn [JSON.skip_ws]. change (JSON.is_json_ws 123) with false. cbv iota zeta.
  cbn [JSON.head_is List.tl].
  change (N.eqb 123 110) with false. change (N.eqb 123 116) with false.
  change (N.eqb 123 102) with false. change (N.eqb 123 34) with false.
  change (N.eqb 123 91) with false. change (N.eqb 123 123) with true.
  cbv iota.
  destruct (text_fields_head props [125%N] Hne) as [Y EY].
  assert (Hh : JSON.head_is 125 (JSON.skip_ws (text_fields props ++ [125%N]))
               = false).
  { rewrite EY. reflexivity. }
  rewrite Hh.
  rewrite (members_text_fields (JSON.parse_value (S (S n)))
             (fun s X Hs => parse_value_string (S n) s X Hs)
             props (S (S n)) [] [] Hne); [reflexivity | | exact Hp].
  rewrite length_app in En. simpl in En.
  apply Nat.le_trans with (List.length (text_fields props)); [exact HL |].
  rewrite Nat.add_1_r in En. injection En as ->. auto.
Qed.

(** X15. What the user types is what the server reads: the body of the
    Login request is a JSON text that parses to the object of the username
    and the password as typed, and the body of Search (POST) to the object
    of the query as typed and the mode [auto], whatever characters the
    texts hold: quotes, backslashes, control characters, surrogates. *)
Theorem typed_text_round_trip st net req :
  Forall code_unit (username st) -> Forall code_unit (password st) ->
  Forall code_unit (searchQ st) ->
  (In req (requests (fst (fst (exec (onClick Login st) net)))) ->
   exists t,
     req_body req = Some (BodyString t) /\
     JSON.parse t
     = Some (VObj [(lit "username", VStr (username st));
                   (lit "password", VStr (password st))])) /\
  (In req (requests (fst (fst (exec (onClick SearchPost st) net)))) ->
   exists t,
     req_body req = Some (BodyString t) /\
     JSON.parse t
     = Some (VObj [(lit "q", VStr (searchQ st));
                   (lit "mode", VStr (lit "auto"))])).
Proof.
  intros Hu Hp Hq. split; intros Hin.
  - rewrite (click_requests Login st _ _ _ _ net req eq_refl
               ltac:(apply polite_apiFetch; reflexivity) Hin).
    eexists. split; [reflexivity |].
    apply (parse_text_object [(lit "username", username st);
                              (lit "password", password st)]);
      [discriminate |].
    repeat (apply Forall_cons; [split; [| assumption] |]);
      try apply Forall_nil;
      repeat (apply Forall_cons; [reflexivity |]); apply Forall_nil.
  - assert (P : polite (fun r => r = request_of (lit "/api/search")
                          (init_post json_headers
                             (json_body (VObj [(lit "q", VStr (searchQ st));
                                               (lit "mode", VStr (lit "auto"))]))))
                  (searchPost_fn st)).
    { unfold searchPost_fn. apply polite_bind;
        [apply polite_apiFetch; reflexivity | intros r; apply polite_listing]. }
    rewrite (click_requests SearchPost st _ _ _ _ net req eq_refl P Hin).
    eexists. split; [reflexivity |].
    apply (parse_text_object [(lit "q", searchQ st);
                              (lit "mode", lit "auto")]);
      [discriminate |].
    apply Forall_cons; [split; [| assumption] |];
      [repeat (apply Forall_cons; [reflexivity |]); apply Forall_nil |].
    apply Forall_cons; [| apply Forall_nil].
    split; repeat (apply Forall_cons; [reflexivity |]); apply Forall_nil.
Qed.

End OnHost.

(** * The log of a body nested too deep *)


(** * The theorems at work *)

(** The page on a host of little stack. *)
#[local] Existing Instance small_host.

Lemma run_catches_witness :
  log (state_after (run (lit "Health") (apiFetch (lit "/api/health") None))
         [Rejected (ErrorObject (lit "TypeError") (lit "Failed to fetch"))]
         (apply (LogPrepend (lit "earlier")) initial))
  = error_log (lit "Health")
      (ErrorObject (lit "TypeError") (lit "Failed to fetch")) ++ lit "earlier".
Proof.
  exact (proj1 (proj2 (proj2
    (run_catches Health initial (lit "Health")
       (apiFetch (lit "/api/health") None)
       [Rejected (ErrorObject (lit "TypeError") (lit "Failed to fetch"))]
       [Requested (request_of (lit "/api/health") None)]
       (ErrorObject (lit "TypeError") (lit "Failed to fetch")) []
       (apply (LogPrepend (lit "earlier")) initial)
       eq_refl eq_refl)))).
Defined.


Lemma busy_gate_witness :
  busy (app clicked) = true /\
  (forall b, disabled b (app clicked) = true) /\
  (forall ans c', step clicked (Settle ans) c' -> busy (app c') = false).
Proof.
  destruct (busy_gate clicked
              (reach_step start (Click Health) clicked reach_start
                 (step_click Health start eq_refl)))
    as [_ [_ [_ [Hd [_ [_ Hs]]]]]].
  split; [reflexivity |].
  split; [apply Hd; reflexivity |].
  intros ans c' H. apply (Hs ans c' H).
Defined.


Lemma unencodable_query_witness :
  exec (onClick SearchGet (apply (SetSearchQ [55357%N]) initial)) []
  = ([StateUpdate (SetBusy true);
      StateUpdate (LogPrepend (error_log (lit "GET /api/search?q=...")
                                 URI.URIError));
      StateUpdate (SetBusy false)],
     Returned tt, []).
Proof.
  exact (proj2 (proj2
    (unencodable_query SearchGet (apply (SetSearchQ [55357%N]) initial)
       (lit "GET /api/search?q=...")
       (searchGet_fn (apply (SetSearchQ [55357%N]) initial))
       URI.URIError [] eq_refl (or_intror (conj eq_refl eq_refl))))).
Defined.

Lemma query_is_escaped_witness :
  exists eq,
    URI.encodeURIComponent (lit "a b&c=d") = Ok eq /\ Forall uri_safe eq /\
    url (request_of (lit "/api/search?q=a%20b%26c%3Dd") None)
    = lit "/api/search?q=" ++ eq.
Proof.
  apply (proj2 (query_is_escaped (apply (SetSearchQ (lit "a b&c=d")) initial) []
                  (Forall_nil _)
                  ltac:(repeat (apply Forall_cons; [reflexivity |]);
                        apply Forall_nil))
           (request_of (lit "/api/search?q=a%20b%26c%3Dd") None)).
  left. reflexivity.
Defined.



Lemma guarded_requests_witness :
  request_guarantee ProcessSelected
    (apply (SetSelectedIds (lit "4, x, 9")) initial)
    (request_of (lit "/api/books/process-selected")
       (init_post json_headers
          (json_body (VObj [(lit "ids", VArr [VNum (Int 4); VNum (Int 9)])])))).
Proof.
  apply (guarded_requests ProcessSelected
           (apply (SetSelectedIds (lit "4, x, 9")) initial) []).
  - reflexivity.
  - left. reflexivity.
Defined.

Lemma log_history_witness :
  exists c',
    step clicked (Settle (Resolved (text_response 200 (lit "Healthy")))) c' /\
    form (app c') = form (app clicked) /\
    exists text, text <> [] /\ log (app c') = text ++ log (app clicked).
Proof.
  assert (Hs : { c' | step clicked
                        (Settle (Resolved (text_response 200 (lit "Healthy"))))
                        c' }).
  { eexists.
    eapply (step_settle clicked [] _ []
              (Resolved (text_response 200 (lit "Healthy")))).
    reflexivity. }
  destruct Hs as [c' Hs]. exists c'. split; [exact Hs |].
  exact (log_history clicked
           (Settle (Resolved (text_response 200 (lit "Healthy")))) c'
           (reach_step start (Click Health) clicked reach_start
              (step_click Health start eq_refl)) Hs).
Defined.

Lemma typed_text_round_trip_witness :
  exists t,
    req_body
      (request_of (lit "/api/auth/login")
         (init_post json_headers
            (json_body (VObj [(lit "username", VStr (lit "admin"));
                              (lit "password", VStr awkward_password)]))))
    = Some (BodyString t) /\
    JSON.parse t
    = Some (VObj [(lit "username", VStr (lit "admin"));
                  (lit "password", VStr awkward_password)]).
Proof.
  apply (proj1 (typed_text_round_trip
                  (apply (SetPassword awkward_password) initial) []
                  (request_of (lit "/api/auth/login")
                     (init_post json_headers
                        (json_body
                           (VObj [(lit "username", VStr (lit "admin"));
                                  (lit "password", VStr awkward_password)]))))
                  ltac:(repeat (apply Forall_cons; [reflexivity |]);
                        apply Forall_nil)
                  ltac:(repeat (apply Forall_cons; [reflexivity |]);
                        apply Forall_nil)
                  (Forall_nil _))).
  left. reflexivity.
Defined.
